(** * loggo: the Logger handle (logger.go)

    A shallow embedding of [logger.go] of the loggo logging library and the
    properties of its handle type [Logger]: label handling ([WithLabels]),
    the logging primitive ([LogCallf]) and its convenience wrappers, and the
    navigation of the logger hierarchy ([Parent], [Child], [Root]).

    Go values are modelled as follows.
    - A [string] is a sequence of bytes: Rocq's [string].
    - [Labels] is a Go map, a reference type: a value of type [Labels] is
      either nil or the address of a map object kept in the heap of the
      world, so that aliasing between a caller's map and a handle's map can
      be stated.
    - A [*module] is a reference to a Node of a Registry (a [*Context]).
    - Functions that read or change shared state, or that may dereference a
      missing object, run in the monad [M]: a state monad over [World] whose
      failure models a run-time panic or a loop that never finishes. *)

From Stdlib Require Import ZArith Ascii String DecimalString.
From stdpp Require Import base option list gmap fin_maps strings.

Local Open Scope Z_scope.
Local Open Scope nat_scope.

(** ** Levels *)

Inductive Level : Set :=
  | UNSPECIFIED | TRACE | DEBUG | INFO | WARNING | ERROR | CRITICAL.

Global Instance Level_eq_dec : EqDecision Level.
Proof. solve_decision. Defined.

(** The numeric value of a level constant (Go: [type Level uint32], the
    constants number the scale upwards from [UNSPECIFIED]). *)
Definition level_num (l : Level) : nat :=
  match l with
  | UNSPECIFIED => 0 | TRACE => 1 | DEBUG => 2 | INFO => 3
  | WARNING => 4 | ERROR => 5 | CRITICAL => 6
  end.

(** ** Strings *)

(** [strings.ToLower], on the bytes A..Z. *)
Definition lower_ascii (c : ascii) : ascii :=
  let n := nat_of_ascii c in
  if (65 <=? n) && (n <=? 90) then ascii_of_nat (n + 32) else c.

Fixpoint ToLower (s : string) : string :=
  match s with
  | EmptyString => EmptyString
  | String c r => String (lower_ascii c) (ToLower r)
  end.

(** [strings.Join]. *)
Definition Join (elems : list string) (sep : string) : string :=
  String.concat sep elems.

(** The newline byte ['\n']. *)
Definition newline : ascii := ascii_of_nat 10.

(** ** Data model *)

(** The address of a Go map object. *)
Abbreviation loc := positive.

(** [type Labels map[string]string]: nil, or a reference to a map object. *)
Definition Labels : Type := option loc.

(** A Registry is identified by its address; the package variable
    [defaultContext] holds that of the process-wide one. *)
Abbreviation ctxid := nat.
Definition defaultContext : ctxid := 0.

(** Modelled from the spec: the type [*module] is declared outside
    [logger.go].  A Node reference is the owning Registry together with the
    canonical name that indexes the Node in it (section 9 of the spec: an
    arena of Nodes indexed by canonical name, parents held as keys). *)
Definition modref : Type := ctxid * string.

(** Modelled from the spec: the struct [module] is declared outside
    [logger.go]; these are the fields [logger.go] reads, as section 3
    describes a Node. *)
Record module : Type := Module_ {
  name : string;
  level : Level;
  parent : modref;
  context : ctxid;
  tags : list string;
}.

(** Modelled from the spec: the struct [Context] is declared outside
    [logger.go]: the root Node and the map from canonical names to Nodes.
    The writer set is behind [module.write] and is not represented. *)
Record Context : Type := Context_ {
  root : modref;
  modules : gmap string module;
}.

(** [type Logger struct { impl *module; labels Labels }] *)
Record Logger : Type := Logger_ {
  impl : option modref;
  labels : Labels;
}.

Global Instance Logger_eq_dec : EqDecision Logger.
Proof. solve_decision. Defined.

(** The fields of [Entry] that [LogCallf] sets.  [Timestamp] is the reading
    of the clock, [Labels] a map reference. *)
Record Entry : Type := Entry_ {
  Entry_Level : Level;
  Filename : string;
  Line : nat;
  Timestamp : Z;
  Message : string;
  Entry_Labels : Labels;
}.

(** The reserved label key under which the tags of a Node are reported. *)
Definition LoggerTags : string := "logger-tags".

(** A stack frame as [runtime.Caller] reports it: file and line. *)
Definition Frame : Type := string * nat.

(** The file of the functions below. *)
Definition logger_go : string := "logger.go".

Section Loggo.

(** The arguments of a printf call ([interface{}] values) and
    [fmt.Sprintf] belong to the Go library: they are parameters. *)
Context {Arg : Type}.
Variable Sprintf : string → list Arg → string.

(** What a call hands to its collaborators outside [logger.go]: each
    invocation of [fmt.Sprintf] and each Entry given to [module.write]. *)
Inductive Event : Type :=
  | EvSprintf (format : string) (args : list Arg)
  | EvWrite (m : modref) (e : Entry).

Record World : Type := World_ {
  contexts : gmap ctxid Context;
  heap : gmap loc (gmap string string);
  clock : Z;
  events : list Event;
}.

Definition set_contexts (cs : gmap ctxid Context) (W : World) : World :=
  World_ cs (heap W) (clock W) (events W).
Definition set_heap (h : gmap loc (gmap string string)) (W : World) : World :=
  World_ (contexts W) h (clock W) (events W).
Definition emit (e : Event) (W : World) : World :=
  World_ (contexts W) (heap W) (clock W) (events W ++ [e]).

(** ** The monad of stateful, possibly failing computations *)

Definition M (A : Type) : Type := World → option (A * World).

Definition ret {A} (a : A) : M A := λ W, Some (a, W).
Definition bind {A B} (m : M A) (k : A → M B) : M B :=
  λ W, match m W with
       | Some (a, W') => k a W'
       | None => None
       end.
Definition panic {A} : M A := λ _, None.
Definition lift {A} (o : option A) : M A :=
  λ W, match o with Some a => Some (a, W) | None => None end.
Definition gets {A} (f : World → A) : M A := λ W, Some (f W, W).
Definition modify (f : World → World) : M unit := λ W, Some (tt, f W).

Notation "'let*' x ':=' m 'in' k" := (bind m (λ x, k))
  (at level 10, x name, m at level 100, k at level 200).

(** ** Go maps in the heap *)

(** [len(x)] for a map: 0 for nil. *)
Definition len_Labels (x : Labels) : M nat :=
  match x with
  | None => ret 0
  | Some l => let* h := gets heap in let* m := lift (h !! l) in ret (size m)
  end.

(** [make(Labels)]: a new, empty map object. *)
Definition make_Labels : M Labels :=
  let* h := gets heap in
  let l := fresh (dom h) in
  let* _ := modify (set_heap (<[l := ∅]> h)) in
  ret (Some l).

(** [x[k] = v]: assignment to an entry of a nil map panics. *)
Definition map_store (x : Labels) (k v : string) : M unit :=
  match x with
  | None => panic
  | Some l =>
      let* h := gets heap in
      let* m := lift (h !! l) in
      modify (set_heap (<[l := <[k := v]> m]> h))
  end.

(** [for k, v := range x { body }]: the entries the map holds when the
    loop starts are visited once each, in an order that is not specified;
    ranging over nil visits nothing. *)
Definition range_Labels (x : Labels) (body : string → string → M unit) : M unit :=
  match x with
  | None => ret tt
  | Some l =>
      let* h := gets heap in
      let* m := lift (h !! l) in
      map_fold (λ k v acc, let* _ := acc in body k v) (ret tt) m
  end.

(** The label set a [Labels] value denotes in a world: nil denotes the
    empty set. *)
Definition label_set (W : World) (x : Labels) : gmap string string :=
  match x with
  | None => ∅
  | Some l => default ∅ (heap W !! l)
  end.

(** ** The environment: clock and call stack *)

(** [time.Now()] *)
Definition time_Now : M Z := gets clock.

(** [runtime.Caller(skip)], called at the frame [here] of a function whose
    chain of call sites is [stk], the innermost first: 0 is the calling
    function itself, [skip] frames are ascended; the result is absent when
    the stack is not that deep. *)
Definition runtime_Caller (here : Frame) (stk : list Frame) (skip : nat) : option Frame :=
  match skip with
  | 0 => Some here
  | S k => stk !! k
  end.

(** [fmt.Sprintf(format, args...)]: the library function, its invocation
    recorded. *)
Definition fmt_Sprintf (format : string) (args : list Arg) : M string :=
  let* _ := modify (emit (EvSprintf format args)) in
  ret (Sprintf format args).

(** ** Nodes and the Registry *)

(** Reading the Node a reference points to. *)
Definition deref (r : modref) : M module :=
  let* cs := gets contexts in
  let* c := lift (cs !! r.1) in
  lift (modules c !! r.2).

(** Writing it back. *)
Definition store_module (r : modref) (m : module) : M unit :=
  let* cs := gets contexts in
  let* c := lift (cs !! r.1) in
  modify (set_contexts (<[r.1 := Context_ (root c) (<[r.2 := m]> (modules c))]> cs)).

(** Modelled from the spec: [defaultContext.root], the root Node of the
    process-wide Registry, declared outside [logger.go]. *)
Definition defaultContext_root : M modref :=
  let* cs := gets contexts in
  let* c := lift (cs !! defaultContext) in
  ret (root c).

(** The number of Nodes of the world. *)
Definition node_count (W : World) : nat :=
  map_fold (λ _ c n, size (modules c) + n) 0 (contexts W).

(** Modelled from the spec: [module.getEffectiveLogLevel] is defined outside
    [logger.go].  Section 4.3: the own level when it is not UNSPECIFIED,
    else that of the parent, walking upwards.  The walk is a loop; a walk
    that has taken more steps than there are Nodes is in a cycle and never
    ends, which is the failure of [M]. *)
Fixpoint effective_walk (fuel : nat) (W : World) (r : modref) : option Level :=
  match fuel with
  | 0 => None
  | S fuel' =>
      match deref r W with
      | Some (m, _) =>
          if decide (level m = UNSPECIFIED)
          then effective_walk fuel' W (parent m)
          else Some (level m)
      | None => None
      end
  end.

Definition getEffectiveLogLevel (r : modref) : M Level :=
  λ W, match effective_walk (S (node_count W)) W r with
       | Some l => Some (l, W)
       | None => None
       end.

(** Modelled from the spec: [module.willWrite] is defined outside
    [logger.go].  Section 4.3: [level >= EffectiveLevel()]. *)
Definition willWrite (r : modref) (lvl : Level) : M bool :=
  let* eff := getEffectiveLogLevel r in
  ret (level_num eff <=? level_num lvl).

(** Modelled from the spec: [module.setLevel] is defined outside
    [logger.go].  Section 4.3: UNSPECIFIED on the root is replaced by
    WARNING, any other value is stored as given. *)
Definition setLevel (r : modref) (lvl : Level) : M unit :=
  let* m := deref r in
  let lvl' :=
    if decide (name m = "" ∧ lvl = UNSPECIFIED) then WARNING else lvl in
  store_module r (Module_ (name m) lvl' (parent m) (context m) (tags m)).

(** Modelled from the tests: [module.Name] is defined outside [logger.go];
    [TestRootLogger] and [TestParent] expect the root to be named
    [<root>]. *)
Definition module_Name (m : module) : string :=
  if decide (name m = "") then "<root>" else name m.

(** Modelled from the spec: [module.write] is defined outside [logger.go];
    it hands the Entry to the dispatch of the Registry (step 6 of section
    4.4).  The sinks are external: the hand-over is what is recorded. *)
Definition module_write (r : modref) (e : Entry) : M unit :=
  modify (emit (EvWrite r e)).

(** Modelled from the spec: [Context.GetLogger] is defined outside
    [logger.go].  Section 4.2: the name is put in lower case and split on
    the dots; every ancestor prefix that does not exist is created with
    level UNSPECIFIED, no tags and the previous prefix as parent, the root
    (the empty name) being the parent of the first; the tags supplied are
    merged into those of the Node of the full name, without duplicates; the
    handle returned carries no labels. *)

(** The prefixes of a dotted name that end at a dot or at its end, each
    with the prefix before it: [a.b.c] gives [(a, ""); (a.b, a);
    (a.b.c, a.b)].  [par] is the last prefix seen, [acc] the bytes read. *)
Fixpoint prefixes_go (par acc rest : string) : list (string * string) :=
  match rest with
  | EmptyString => [(acc, par)]
  | String c r =>
      if Ascii.eqb c "."
      then (acc, par) :: prefixes_go acc (acc +:+ ".") r
      else prefixes_go par (acc +:+ String c "") r
  end.

Definition prefixes (n : string) : list (string * string) :=
  prefixes_go "" "" n.

(** Find or create the Node [k] of the Registry [c], with parent [p]. *)
Definition ensure (c : ctxid) (ms : gmap string module) (kp : string * string)
  : gmap string module :=
  match ms !! kp.1 with
  | Some _ => ms
  | None => <[kp.1 := Module_ kp.1 UNSPECIFIED (c, kp.2) c []]> ms
  end.

(** Union of tag lists that keeps the order and adds no duplicate. *)
Definition merge_tags (old new : list string) : list string :=
  foldl (λ acc t, if decide (t ∈ acc) then acc else acc ++ [t]) old new.

Definition add_tags (new : list string) (m : module) : module :=
  Module_ (name m) (level m) (parent m) (context m) (merge_tags (tags m) new).

Definition GetLogger (c : ctxid) (n : string) (tgs : list string) : M Logger :=
  let* cs := gets contexts in
  let* ctx := lift (cs !! c) in
  let n' := ToLower n in
  let ms := foldl (ensure c) (modules ctx) (prefixes n') in
  let ms' := alter (add_tags tgs) n' ms in
  let* _ := modify (set_contexts (<[c := Context_ (root ctx) ms']> cs)) in
  ret (Logger_ (Some (c, n')) None).

(** ** logger.go *)

(** [func (logger Logger) WithLabels(labels Labels) Logger] *)
Definition WithLabels (logger : Logger) (lbls : Labels) : M Logger :=
  let* n := len_Labels lbls in
  if n =? 0 then ret logger
  else
    let* fresh_map := make_Labels in
    let result := Logger_ (impl logger) fresh_map in
    let* _ := range_Labels lbls (λ k v, map_store (labels result) k v) in
    ret result.

(** [func (logger Logger) getModule() *module] *)
Definition getModule (logger : Logger) : M modref :=
  match impl logger with
  | None => defaultContext_root
  | Some m => ret m
  end.

(** [func (logger Logger) Root() Logger] *)
Definition Root (logger : Logger) : M Logger :=
  let* module := getModule logger in
  let* m := deref module in
  GetLogger (context m) "" [].

(** [func (logger Logger) Parent() Logger] *)
Definition Parent (logger : Logger) : M Logger :=
  let* module := getModule logger in
  let* m := deref module in
  ret (Logger_ (Some (parent m)) None).

(** The path [Child] and [ChildWithTags] resolve. *)
Definition child_path (m : module) (nm : string) : string :=
  if decide (name m = "") then nm else name m +:+ "." +:+ nm.

(** [func (logger Logger) Child(name string) Logger] *)
Definition Child (logger : Logger) (nm : string) : M Logger :=
  let* module := getModule logger in
  let* m := deref module in
  let path := child_path m nm in
  GetLogger (context m) path [].

(** [func (logger Logger) ChildWithTags(name string, tags ...string) Logger] *)
Definition ChildWithTags (logger : Logger) (nm : string) (tgs : list string)
  : M Logger :=
  let* module := getModule logger in
  let* m := deref module in
  let path := child_path m nm in
  GetLogger (context m) path tgs.

(** [func (logger Logger) Name() string] *)
Definition Name (logger : Logger) : M string :=
  let* module := getModule logger in
  let* m := deref module in
  ret (module_Name m).

(** [func (logger Logger) LogLevel() Level] *)
Definition LogLevel (logger : Logger) : M Level :=
  let* module := getModule logger in
  let* m := deref module in
  ret (level m).

(** [func (logger Logger) Tags() []string] *)
Definition Tags (logger : Logger) : M (list string) :=
  let* module := getModule logger in
  let* m := deref module in
  ret (tags m).

(** [func (logger Logger) EffectiveLogLevel() Level] *)
Definition EffectiveLogLevel (logger : Logger) : M Level :=
  let* module := getModule logger in
  getEffectiveLogLevel module.

(** [func (logger Logger) SetLogLevel(level Level)] *)
Definition SetLogLevel (logger : Logger) (lvl : Level) : M unit :=
  let* module := getModule logger in
  setLevel module lvl.

(** The trimming of [LogCallf]: one newline at the end of the message is
    cut off. *)
Definition trim_newline (message : string) : string :=
  if (0 <? String.length message)
     && bool_decide (String.get (String.length message - 1) message = Some newline)
  then String.substring 0 (String.length message - 1) message
  else message.

(** [func (logger Logger) LogCallf(calldepth int, level Level,
    message string, args ...interface{})], called with the chain of call
    sites [stk]. *)
Definition LogCallf (stk : list Frame) (logger : Logger) (calldepth : nat)
    (lvl : Level) (message : string) (args : list Arg) : M unit :=
  let* module := getModule logger in
  let* ok := willWrite module lvl in
  if negb ok then ret tt
  else
    let* now := time_Now in
    let '(file, line) :=
      match runtime_Caller (logger_go, 147) stk (calldepth + 1) with
      | Some fl => fl
      | None => ("???", 0)
      end in
    let message := trim_newline message in
    let* formattedMessage :=
      (if 0 <? length args then fmt_Sprintf message args else ret message) in
    let* m := deref module in
    let* n := len_Labels (labels logger) in
    let* entryLabels :=
      (if (0 <? length (tags m)) || (0 <? n) then
         let* made := make_Labels in
         let* made :=
           (if 0 <? length (tags m) then
              let* made' := make_Labels in
              let* _ := map_store made' LoggerTags (Join (tags m) ",") in
              ret made'
            else ret made) in
         let* _ := range_Labels (labels logger) (λ k v, map_store made k v) in
         ret made
       else ret None) in
    module_write module
      (Entry_ lvl file line now formattedMessage entryLabels).

(** [func (logger Logger) Logf(level Level, message string,
    args ...interface{})] *)
Definition Logf (stk : list Frame) (logger : Logger) (lvl : Level)
    (message : string) (args : list Arg) : M unit :=
  LogCallf ((logger_go, 128) :: stk) logger 2 lvl message args.

Definition Criticalf (stk : list Frame) (logger : Logger)
    (message : string) (args : list Arg) : M unit :=
  Logf ((logger_go, 189) :: stk) logger CRITICAL message args.

Definition Errorf (stk : list Frame) (logger : Logger)
    (message : string) (args : list Arg) : M unit :=
  Logf ((logger_go, 194) :: stk) logger ERROR message args.

Definition Warningf (stk : list Frame) (logger : Logger)
    (message : string) (args : list Arg) : M unit :=
  Logf ((logger_go, 199) :: stk) logger WARNING message args.

Definition Infof (stk : list Frame) (logger : Logger)
    (message : string) (args : list Arg) : M unit :=
  Logf ((logger_go, 204) :: stk) logger INFO message args.

Definition Debugf (stk : list Frame) (logger : Logger)
    (message : string) (args : list Arg) : M unit :=
  Logf ((logger_go, 209) :: stk) logger DEBUG message args.

Definition Tracef (stk : list Frame) (logger : Logger)
    (message : string) (args : list Arg) : M unit :=
  Logf ((logger_go, 214) :: stk) logger TRACE message args.

(** [func (logger Logger) IsLevelEnabled(level Level) bool] *)
Definition IsLevelEnabled (logger : Logger) (lvl : Level) : M bool :=
  let* module := getModule logger in
  willWrite module lvl.

Definition IsErrorEnabled (logger : Logger) : M bool := IsLevelEnabled logger ERROR.
Definition IsWarningEnabled (logger : Logger) : M bool := IsLevelEnabled logger WARNING.
Definition IsInfoEnabled (logger : Logger) : M bool := IsLevelEnabled logger INFO.
Definition IsDebugEnabled (logger : Logger) : M bool := IsLevelEnabled logger DEBUG.
Definition IsTraceEnabled (logger : Logger) : M bool := IsLevelEnabled logger TRACE.

(** ** Predicates and abbreviations of the statements *)

(** A map value is valid in a world when it is nil or refers to a map
    object that exists: Go has no dangling map references. *)
Definition valid_labels (W : World) (x : Labels) : Prop :=
  match x with
  | None => True
  | Some l => is_Some (heap W !! l)
  end.

(** The labels the tags of a Node contribute to an Entry. *)
Definition tag_labels (m : module) : gmap string string :=
  if 0 <? length (tags m) then {[ LoggerTags := Join (tags m) "," ]} else ∅.

(** The call site [LogCallf] reports. *)
Definition call_site (stk : list Frame) (calldepth : nat) : Frame :=
  match runtime_Caller (logger_go, 147) stk (calldepth + 1) with
  | Some fl => fl
  | None => ("???", 0)
  end.

(** The events a call adds before the Entry is handed over: the call of
    [fmt.Sprintf], when there is one. *)
Definition format_events (message : string) (args : list Arg) : list Event :=
  if 0 <? length args then [EvSprintf (trim_newline message) args] else [].

(** Two results of [WithLabels] that behave alike: the same world, the
    same labels, the same Node. *)
Definition same_handle (a b : option (Logger * World)) : Prop :=
  match a, b with
  | Some (ha, Wa), Some (hb, Wb) =>
      Wa = Wb ∧ labels ha = labels hb ∧ getModule ha Wa = getModule hb Wb
  | None, None => True
  | _, _ => False
  end.

(** The Nodes of a Registry are indexed by their names and refer to it. *)
Definition context_ok (c : ctxid) (ms : gmap string module) : Prop :=
  ∀ k m, ms !! k = Some m → name m = k ∧ context m = c.

Definition registry_ok (W : World) : Prop :=
  ∀ c ctx, contexts W !! c = Some ctx → context_ok c (modules ctx).

End Loggo.

Notation "'let*' x ':=' m 'in' k" := (bind m (λ x, k))
  (at level 10, x name, m at level 100, k at level 200).

(** ** A fragment of Go for running the model

    Integer and string arguments, and [fmt.Sprintf] for the verbs [%d],
    [%s], [%v] and [%%] without flags, width or precision, with the
    renderings the [fmt] package documents for a wrong argument type, a
    missing argument and arguments left over.  The theorems below hold for
    every [Sprintf]; this one is used to run examples. *)

Inductive GoValue : Type :=
  | VInt (z : Z)
  | VString (s : string).

Definition decimal (z : Z) : string :=
  DecimalString.NilZero.string_of_int (Z.to_int z).

Definition go_type (a : GoValue) : string :=
  match a with VInt _ => "int" | VString _ => "string" end.

Definition go_show (a : GoValue) : string :=
  match a with VInt z => decimal z | VString s => s end.

Definition go_bad (verb : ascii) (a : GoValue) : string :=
  "%!" +:+ String verb "" +:+ "(" +:+ go_type a +:+ "=" +:+ go_show a +:+ ")".

Definition go_verb (verb : ascii) (a : GoValue) : string :=
  if Ascii.eqb verb "v" then go_show a
  else if Ascii.eqb verb "d" then
    match a with VInt z => decimal z | _ => go_bad verb a end
  else if Ascii.eqb verb "s" then
    match a with VString s => s | _ => go_bad verb a end
  else go_bad verb a.

Definition go_extra (args : list GoValue) : string :=
  match args with
  | [] => ""
  | _ => "%!(EXTRA "
         +:+ String.concat ", " (map (λ a, go_type a +:+ "=" +:+ go_show a) args)
         +:+ ")"
  end.

Fixpoint goSprintf (format : string) (args : list GoValue) : string :=
  match format with
  | EmptyString => go_extra args
  | String c rest =>
      if Ascii.eqb c "%" then
        match rest with
        | EmptyString => "%!(NOVERB)" +:+ go_extra args
        | String verb rest' =>
            if Ascii.eqb verb "%" then String "%" (goSprintf rest' args)
            else match args with
                 | [] => "%!" +:+ String verb "" +:+ "(MISSING)"
                         +:+ goSprintf rest' []
                 | a :: args' => go_verb verb a +:+ goSprintf rest' args'
                 end
        end
      else String c (goSprintf rest args)
  end.

(** A world to run the model in: the default Registry with its root at
    WARNING; a second Registry, with root at INFO, the Nodes [testing] and
    [testing.withtags], the latter tagged; three map objects. *)
Definition sample_root_node : module :=
  Module_ "" WARNING (defaultContext, "") defaultContext [].

Definition sample_tagged_node : module :=
  Module_ "testing.withtags" UNSPECIFIED (1, "testing") 1 ["tag1"; "tag2"].

Definition sample_default : Context :=
  Context_ (defaultContext, "") {[ "" := sample_root_node ]}.

Definition sample_context : Context :=
  Context_ (1, "")
    (<[ "" := Module_ "" INFO (1, "") 1 [] ]>
     (<[ "testing" := Module_ "testing" UNSPECIFIED (1, "") 1 [] ]>
      {[ "testing.withtags" := sample_tagged_node ]})).

Definition sample_heap : gmap loc (gmap string string) :=
  <[ 1%positive := {[ "foo" := "bar" ]} ]>
  (<[ 2%positive := {[ "hello" := "world" ]} ]>
   {[ 3%positive := ∅ ]}).

Definition sample_world : @World GoValue :=
  World_ (<[ defaultContext := sample_default ]> {[ 1 := sample_context ]})
    sample_heap 1700000000%Z [].

(** Handles and maps of that world: a handle on [testing] that carries the
    label [foo], a handle on the tagged Node that carries the label
    [hello], the map with the label [hello], the empty map. *)
Definition testing_logger : Logger := Logger_ (Some (1, "testing")) (Some 1%positive).
Definition tagged_logger : Logger :=
  Logger_ (Some (1, "testing.withtags")) (Some 2%positive).
Definition hello_labels : Labels := Some 2%positive.
Definition empty_labels : Labels := Some 3%positive.

(** The root handle of the second Registry of the examples. *)
Definition sample_root : Logger := Logger_ (Some (1, "")) None.

(** The call sites of a caller: line 43 of the test file, itself called
    from a test runner. *)
Definition sample_stack : list Frame :=
  [("logger_test.go", 43); ("runner.go", 7)].

(** Whether a name has a dot in it. *)
Fixpoint has_dot (s : string) : bool :=
  match s with
  | EmptyString => false
  | String c r => Ascii.eqb c "." || has_dot r
  end.

(** ** What a run lets a sink observe *)

Section Observations.
Context {Arg : Type}.

(** The Entries handed to [module.write], in order. *)
Definition writes (evs : list (@Event Arg)) : list (modref * Entry) :=
  omap (λ ev, match ev with EvWrite r e => Some (r, e) | EvSprintf _ _ => None end)
    evs.

(** An event with the reference to the label map of its Entry left out. *)
Definition without_labels (ev : @Event Arg) : @Event Arg :=
  match ev with
  | EvWrite r e =>
      EvWrite r (Entry_ (Entry_Level e) (Filename e) (Line e) (Timestamp e)
                   (Message e) None)
  | EvSprintf _ _ => ev
  end.

(** The run hands over an Entry last, at the level [lvl] and with the call
    site [site]. *)
Definition hands_over (run : M unit) (W : @World Arg) (lvl : Level) (site : Frame)
  : Prop :=
  ∃ r e W', run W = Some (tt, W')
    ∧ writes (events W') = writes (events W) ++ [(r, e)]
    ∧ Entry_Level e = lvl
    ∧ (Filename e, Line e) = site.

End Observations.

(** * Properties *)

(** ** Strings *)

Lemma app_cons (x : ascii) (a b : string) :
  String x a +:+ b = String x (a +:+ b).
Proof. done. Qed.

Lemma app_assoc_string (a b c : string) : (a +:+ b) +:+ c = a +:+ (b +:+ c).
Proof. induction a as [|x a IH]; [done|]. rewrite !app_cons. by rewrite IH. Qed.

Lemma app_empty_r (a : string) : a +:+ "" = a.
Proof. induction a as [|x a IH]; [done|]. rewrite app_cons. by rewrite IH. Qed.

Lemma app_empty_inv (a b : string) : a +:+ b = "" → a = "" ∧ b = "".
Proof. destruct a; [done|]. by rewrite app_cons. Qed.

Lemma lower_ascii_idemp (c : ascii) : lower_ascii (lower_ascii c) = lower_ascii c.
Proof. by destruct c as [[] [] [] [] [] [] [] []]. Qed.

Lemma ToLower_idemp (s : string) : ToLower (ToLower s) = ToLower s.
Proof.
  induction s as [|c s IH]; [done|]. cbn [ToLower].
  by rewrite lower_ascii_idemp, IH.
Qed.

Lemma ToLower_app (a b : string) : ToLower (a +:+ b) = ToLower a +:+ ToLower b.
Proof.
  induction a as [|c a IH]; [done|].
  rewrite app_cons. cbn [ToLower]. by rewrite IH.
Qed.

Lemma ToLower_empty (s : string) : ToLower s = "" ↔ s = "".
Proof. by destruct s. Qed.

Lemma length_app_newline (s : string) :
  String.length (s +:+ String newline "") = S (String.length s).
Proof. induction s as [|c s IH]; [done|]. rewrite app_cons. cbn. by rewrite IH. Qed.

Lemma get_app_newline (s : string) :
  String.get (String.length s) (s +:+ String newline "") = Some newline.
Proof. induction s as [|c s IH]; [done|]. by rewrite app_cons. Qed.

Lemma substring_app_newline (s : string) :
  String.substring 0 (String.length s) (s +:+ String newline "") = s.
Proof. induction s as [|c s IH]; [done|]. rewrite app_cons. cbn. by rewrite IH. Qed.

(** A newline at the end is cut off. *)
Lemma trim_newline_ends (s : string) :
  trim_newline (s +:+ String newline "") = s.
Proof.
  unfold trim_newline. rewrite length_app_newline.
  replace (S (String.length s) - 1) with (String.length s) by lia.
  rewrite get_app_newline, substring_app_newline.
  by rewrite bool_decide_eq_true_2.
Qed.

Lemma get_last_newline (s : string) :
  0 < String.length s →
  String.get (String.length s - 1) s = Some newline →
  s = String.substring 0 (String.length s - 1) s +:+ String newline "".
Proof.
  induction s as [|c s IH]; cbn [String.length]; [lia|]. intros _.
  destruct s as [|d s].
  - cbn. intros [= ->]. done.
  - cbn [String.length] in *.
    replace (S (S (String.length s)) - 1) with (S (String.length s)) by lia.
    replace (S (String.length s) - 1) with (String.length s) in IH by lia.
    cbn [String.get]. intros Hg.
    change (String.substring 0 (S (String.length s)) (String c (String d s)))
      with (String c (String.substring 0 (String.length s) (String d s))).
    rewrite app_cons. f_equal. apply IH; [lia|done].
Qed.

(** A message that does not end in a newline is left as it is. *)
Lemma trim_newline_other (s : string) :
  (∀ s', s ≠ s' +:+ String newline "") → trim_newline s = s.
Proof.
  intros Hne. unfold trim_newline.
  destruct (0 <? String.length s) eqn:Hlen; [|done].
  case_bool_decide as Hget; [|done].
  apply Nat.ltb_lt in Hlen.
  destruct (Hne _ (get_last_newline s Hlen Hget)).
Qed.

(** ** The monad and the heap *)

Section Heap.
Context {Arg : Type}.
Implicit Types W : @World Arg.

Lemma bind_Some {A B} (m : M A) (k : A → M B) W a W' :
  m W = Some (a, W') → bind m k W = k a W'.
Proof. unfold bind. by intros ->. Qed.

Lemma set_heap_id W : set_heap (heap W) W = W.
Proof. by destruct W. Qed.

Lemma set_heap_set_heap W h1 h2 : set_heap h2 (set_heap h1 W) = set_heap h2 W.
Proof. done. Qed.

Lemma len_Labels_eq W x :
  valid_labels W x → len_Labels x W = Some (size (label_set W x), W).
Proof.
  destruct x as [l|]; [|done]. intros [m Hm].
  unfold len_Labels, bind, gets, lift, label_set. by rewrite Hm.
Qed.

Lemma len_Labels_inv W x n W' :
  len_Labels x W = Some (n, W') →
  valid_labels W x ∧ n = size (label_set W x) ∧ W' = W.
Proof.
  destruct x as [l|]; cbn.
  - unfold bind, gets, lift, ret. destruct (heap W !! l) eqn:Hl; [|done].
    intros [= <- <-]. split; [by eexists|done].
  - by intros [= <- <-].
Qed.

Lemma make_Labels_eq W :
  make_Labels W =
    Some (Some (fresh (dom (heap W))),
          set_heap (<[fresh (dom (heap W)) := ∅]> (heap W)) W).
Proof. done. Qed.

Lemma fresh_heap (h : gmap loc (gmap string string)) : h !! fresh (dom h) = None.
Proof. apply not_elem_of_dom, is_fresh. Qed.

Lemma map_store_eq W l d k v :
  heap W !! l = Some d →
  map_store (Some l) k v W = Some (tt, set_heap (<[l := <[k := v]> d]> (heap W)) W).
Proof. intros Hl. unfold map_store, bind, gets, lift, modify. by rewrite Hl. Qed.

(** The copying loop of [WithLabels] and [LogCallf]: ranging over [src]
    and storing every entry in the map object [dst] leaves in [dst] the
    entries of [src] over those it held. *)
Lemma range_copy W (src : Labels) (dst : loc) (d : gmap string string) :
  valid_labels W src →
  heap W !! dst = Some d →
  range_Labels src (λ k v, map_store (Some dst) k v) W =
    Some (tt, set_heap (<[dst := label_set W src ∪ d]> (heap W)) W).
Proof.
  intros Hsrc Hdst. destruct src as [l|]; cbn.
  - destruct Hsrc as [m Hm]. unfold bind at 1 2, gets, lift. rewrite Hm. cbn.
    apply (map_fold_weak_ind (λ (r : M unit) m',
      r W = Some (tt, set_heap (<[dst := m' ∪ d]> (heap W)) W))).
    + unfold ret. rewrite (left_id_L ∅ (∪)), insert_id by done.
      by rewrite set_heap_id.
    + intros k v m' r Hk IH. rewrite IH. unfold bind, lift, modify. cbn.
      rewrite lookup_insert_eq, insert_insert_eq. by rewrite insert_union_l.
  - unfold ret. rewrite (left_id_L ∅ (∪)), insert_id by done.
    by rewrite set_heap_id.
Qed.

End Heap.

(** ** WithLabels *)

Section WithLabels.
Context {Arg : Type}.
Implicit Types W : @World Arg.

(** What a call of [WithLabels] returns and leaves behind. *)
Lemma WithLabels_eq W h m :
  valid_labels W m →
  WithLabels h m W =
    if size (label_set W m) =? 0 then Some (h, W)
    else Some (Logger_ (impl h) (Some (fresh (dom (heap W)))),
               set_heap (<[fresh (dom (heap W)) := label_set W m]> (heap W)) W).
Proof.
  intros Hm. unfold WithLabels.
  rewrite (bind_Some _ _ _ _ _ (len_Labels_eq W m Hm)).
  destruct (size (label_set W m) =? 0); [done|].
  rewrite (bind_Some _ _ _ _ _ (make_Labels_eq W)). cbn [labels].
  set (l := fresh (dom (heap W))).
  assert (Hl : heap W !! l = None) by apply fresh_heap.
  assert (Hset : label_set (set_heap (<[l:=∅]> (heap W)) W) m = label_set W m).
  { destruct m as [lm|]; [|done]. destruct Hm as [cm Hcm]. cbn.
    rewrite lookup_insert_ne; [done|]. intros ->. congruence. }
  erewrite bind_Some; last first.
  { apply (range_copy _ m l ∅).
    - destruct m as [lm|]; [|done]. destruct Hm as [cm Hcm]. cbn.
      exists cm. rewrite lookup_insert_ne; [done|]. intros ->. congruence.
    - cbn. apply lookup_insert_eq. }
  unfold ret. rewrite Hset, (right_id_L ∅ (∪)). cbn.
  by rewrite insert_insert_eq.
Qed.

Lemma size_label_set_0 W m :
  (size (label_set W m) =? 0) = true ↔ label_set W m = ∅.
Proof. rewrite Nat.eqb_eq. apply map_size_empty_iff. Qed.

(** C1, as amended.  For a non-empty map [m], [WithLabels] returns a handle
    on the same Node whose label set is that of [m] and nothing else: the
    labels the receiver carried are replaced, not merged.  On an empty map
    it returns the receiver and changes nothing. *)
Theorem WithLabels_replaces W h m :
  valid_labels W m →
  (label_set W m ≠ ∅ →
     ∃ r W', WithLabels h m W = Some (r, W')
       ∧ impl r = impl h
       ∧ label_set W' (labels r) = label_set W m)
  ∧ (label_set W m = ∅ → WithLabels h m W = Some (h, W)).
Proof.
  intros Hm. rewrite (WithLabels_eq W h m Hm). split.
  - intros Hne. destruct (size (label_set W m) =? 0) eqn:Hs.
    { by apply size_label_set_0 in Hs. }
    eexists _, _. split; [done|]. split; [done|].
    cbn. by rewrite lookup_insert_eq.
  - intros He. apply size_label_set_0 in He. by rewrite He.
Qed.

(** C10, as amended.  [WithLabels] changes no map object that existed
    before the call, so the label sets of the receiver and of the argument
    are what they were; the map of the handle returned is never the map
    object of the argument.  For a non-empty [m] the handle returned holds
    a new map object with the entries of [m]; for an empty [m] no copy is
    made and the handle returned is the receiver.  A later store into [m]
    leaves the label set of the handle returned as it is, [m] being
    non-empty or not the map object the receiver holds (the field is not
    exported: a handle only holds map objects that [WithLabels] made). *)
Theorem WithLabels_frame W h m :
  valid_labels W m →
  valid_labels W (labels h) →
  ∃ r W', WithLabels h m W = Some (r, W')
    ∧ (∀ l, l ∈ dom (heap W) → heap W' !! l = heap W !! l)
    ∧ label_set W' (labels h) = label_set W (labels h)
    ∧ label_set W' m = label_set W m
    ∧ (label_set W m ≠ ∅ →
         ∃ l, labels r = Some l ∧ (l ∉ dom (heap W))
           ∧ label_set W' (labels r) = label_set W m)
    ∧ (label_set W m = ∅ → r = h)
    ∧ ((label_set W m ≠ ∅ ∨ m ≠ labels h) →
         (∀ l, m = Some l → labels r ≠ Some l)
         ∧ ∀ k v W'', map_store m k v W' = Some (tt, W'') →
             label_set W'' (labels r) = label_set W' (labels r)).
Proof.
  intros Hm Hh. rewrite (WithLabels_eq W h m Hm).
  destruct (size (label_set W m) =? 0) eqn:Hs.
  - apply size_label_set_0 in Hs. exists h, W.
    do 5 (split; [done|]). split; [done|].
    intros [?|Hne]; [done|]. split.
    + intros l -> Hl. by rewrite Hl in Hne.
    + intros k v W'' Hst.
      destruct m as [lm|]; [|done]. destruct Hm as [cm Hcm].
      rewrite (map_store_eq W lm cm k v Hcm) in Hst. injection Hst as <-.
      destruct (labels h) as [lh|]; [|done]. cbn.
      rewrite lookup_insert_ne; [done|]. intros ->. done.
  - set (l := fresh (dom (heap W))).
    assert (Hl : heap W !! l = None) by apply fresh_heap.
    assert (Hold : ∀ l', l' ∈ dom (heap W) →
              <[l := label_set W m]> (heap W) !! l' = heap W !! l').
    { intros l' [x Hx]%elem_of_dom. rewrite lookup_insert_ne; [done|].
      intros <-. congruence. }
    assert (Hkeep : ∀ x, valid_labels W x →
              label_set (set_heap (<[l := label_set W m]> (heap W)) W) x
              = label_set W x).
    { intros [lx|]; [|done]. intros Hx%elem_of_dom. cbn. by rewrite Hold. }
    eexists _, _. split; [done|]. cbn [heap set_heap labels].
    split; [done|]. split; [by apply Hkeep|]. split; [by apply Hkeep|].
    split; [|split].
    + intros _. exists l. split; [done|]. split; [by apply not_elem_of_dom|].
      cbn. by rewrite lookup_insert_eq.
    + intros He%size_label_set_0. congruence.
    + intros _. split.
      * intros lm -> [= ->]. destruct Hm as [cm Hcm]. congruence.
      * intros k v W'' Hst. destruct m as [lm|]; [|done].
        destruct Hm as [cm Hcm].
        assert (lm ≠ l) by (intros ->; congruence).
        erewrite map_store_eq in Hst
          by (cbn; rewrite lookup_insert_ne by done; exact Hcm).
        injection Hst as <-. cbn.
        rewrite lookup_insert_ne by done. done.
Qed.

End WithLabels.

(** C1, refuted as stated: the handle on [testing] carries [foo]; after
    [WithLabels] with the map holding [hello] the handle returned has no
    label [foo], so its label set is not the merge of the two. *)
Lemma WithLabels_not_merged :
  ∃ r W', WithLabels testing_logger hello_labels sample_world = Some (r, W')
    ∧ label_set sample_world (labels testing_logger) !! "foo" = Some "bar"
    ∧ label_set W' (labels r) !! "foo" = None
    ∧ label_set W' (labels r)
      ≠ label_set sample_world hello_labels
        ∪ label_set sample_world (labels testing_logger).
Proof.
  destruct (WithLabels testing_logger hello_labels sample_world)
    as [[r W']|] eqn:E; vm_compute in E; [|discriminate].
  injection E as <- <-. eexists _, _. split; [reflexivity|].
  split; [by vm_compute|]. split; [by vm_compute|].
  intros H. apply (f_equal (λ m : gmap string string, m !! "foo")) in H.
  vm_compute in H. discriminate.
Qed.

Lemma WithLabels_replaces_witness :
  valid_labels sample_world hello_labels
  ∧ label_set sample_world hello_labels ≠ ∅
  ∧ ∃ r W', WithLabels testing_logger hello_labels sample_world = Some (r, W')
      ∧ impl r = impl testing_logger
      ∧ label_set W' (labels r) = label_set sample_world hello_labels.
Proof.
  assert (Hv : valid_labels sample_world hello_labels) by (by eexists).
  assert (Hne : label_set sample_world hello_labels ≠ ∅).
  { intros H. apply (f_equal (λ m : gmap string string, m !! "hello")) in H.
    vm_compute in H. discriminate. }
  split; [exact Hv|]. split; [exact Hne|].
  exact (proj1 (WithLabels_replaces sample_world testing_logger hello_labels Hv) Hne).
Defined.

(** C10, refuted as stated: with the empty map as argument the handle
    returned is the receiver; what it holds is the map object of the
    receiver, with the label [foo], not a new copy of the argument. *)
Lemma WithLabels_empty_no_copy :
  WithLabels testing_logger empty_labels sample_world
    = Some (testing_logger, sample_world)
  ∧ label_set sample_world empty_labels = ∅
  ∧ label_set sample_world (labels testing_logger) !! "foo" = Some "bar"
  ∧ label_set sample_world (labels testing_logger)
    ≠ label_set sample_world empty_labels.
Proof.
  split; [by vm_compute|]. split; [by vm_compute|]. split; [by vm_compute|].
  intros H. apply (f_equal (λ m : gmap string string, m !! "foo")) in H.
  vm_compute in H. discriminate.
Qed.

Lemma WithLabels_frame_witness :
  valid_labels sample_world hello_labels
  ∧ valid_labels sample_world (labels testing_logger)
  ∧ ∃ r W', WithLabels testing_logger hello_labels sample_world = Some (r, W')
      ∧ label_set W' (labels testing_logger)
        = label_set sample_world (labels testing_logger)
      ∧ label_set W' hello_labels = label_set sample_world hello_labels
      ∧ (∀ k v W'', map_store hello_labels k v W' = Some (tt, W'') →
           label_set W'' (labels r) = label_set W' (labels r)).
Proof.
  assert (Hv : valid_labels sample_world hello_labels) by (by eexists).
  assert (Hh : valid_labels sample_world (labels testing_logger)) by (by eexists).
  split; [exact Hv|]. split; [exact Hh|].
  destruct (WithLabels_frame sample_world testing_logger hello_labels Hv Hh)
    as (r & W' & Hr & _ & Hrecv & Harg & _ & _ & Hlater).
  exists r, W'. split; [exact Hr|]. split; [exact Hrecv|]. split; [exact Harg|].
  apply Hlater. right. discriminate.
Defined.

(** ** The logging primitive *)

Section Logging.
Context {Arg : Type} (Sprintf : string → list Arg → string).
Implicit Types W : @World Arg.

Lemma deref_inv W r m W' : deref r W = Some (m, W') → W' = W.
Proof.
  unfold deref, bind, gets, lift.
  destruct (contexts W !! r.1) as [c|]; [|done].
  destruct (modules c !! r.2); [|done]. by intros [= _ <-].
Qed.

Lemma getModule_inv W h r W' : getModule h W = Some (r, W') → W' = W.
Proof.
  unfold getModule, defaultContext_root, bind, gets, lift, ret.
  destruct (impl h); [by intros [= _ <-]|].
  destruct (contexts W !! defaultContext); [|done]. by intros [= _ <-].
Qed.

Lemma getEffectiveLogLevel_inv W r l W' :
  getEffectiveLogLevel r W = Some (l, W') → W' = W.
Proof.
  unfold getEffectiveLogLevel.
  destruct (effective_walk _ _ _); [|done]. by intros [= _ <-].
Qed.

Lemma willWrite_inv W r lvl b W' :
  willWrite r lvl W = Some (b, W') →
  W' = W ∧ ∃ eff, getEffectiveLogLevel r W = Some (eff, W)
                  ∧ b = (level_num eff <=? level_num lvl).
Proof.
  unfold willWrite, bind, ret.
  destruct (getEffectiveLogLevel r W) as [[eff W1]|] eqn:He; [|done].
  pose proof (getEffectiveLogLevel_inv _ _ _ _ He) as ->.
  intros [= <- <-]. eauto.
Qed.

(** More steps do not change a level that the walk has found. *)
Lemma effective_walk_more W (fuel extra : nat) r l :
  effective_walk fuel W r = Some l → effective_walk (fuel + extra) W r = Some l.
Proof.
  revert r. induction fuel as [|fuel IH]; intros r; [done|].
  cbn [effective_walk Nat.add].
  destruct (deref r W) as [[m W1]|]; [|done].
  case_decide; [apply IH|done].
Qed.

(** A Node with a level of its own has that level as effective level. *)
Lemma getEffectiveLogLevel_own W r m :
  deref r W = Some (m, W) → level m ≠ UNSPECIFIED →
  getEffectiveLogLevel r W = Some (level m, W).
Proof.
  intros Hd Hl. unfold getEffectiveLogLevel. cbn [effective_walk].
  rewrite Hd. by rewrite decide_False.
Qed.

(** A Node whose effective level is found exists. *)
Lemma getEffectiveLogLevel_deref W r eff W' :
  getEffectiveLogLevel r W = Some (eff, W') → ∃ m, deref r W = Some (m, W).
Proof.
  unfold getEffectiveLogLevel. cbn [effective_walk].
  destruct (deref r W) as [[m W1]|] eqn:Hd; [|done].
  pose proof (deref_inv _ _ _ _ Hd) as ->. eauto.
Qed.

(** A call below the effective level returns at once. *)
Lemma LogCallf_discarded stk h calldepth lvl message args W r :
  getModule h W = Some (r, W) →
  willWrite r lvl W = Some (false, W) →
  LogCallf Sprintf stk h calldepth lvl message args W = Some (tt, W).
Proof.
  intros Hg Hw. unfold LogCallf.
  rewrite (bind_Some _ _ _ _ _ Hg), (bind_Some _ _ _ _ _ Hw). done.
Qed.

Lemma deref_same_contexts W W2 r m :
  contexts W2 = contexts W → deref r W = Some (m, W) → deref r W2 = Some (m, W2).
Proof.
  unfold deref, bind, gets, lift. intros ->.
  destruct (contexts W !! r.1) as [c|]; [|done].
  destruct (modules c !! r.2); [|done]. by intros [= ->].
Qed.

(** Allocation leaves the maps that exist as they are. *)
Lemma alloc_keeps W (x : Labels) (l : loc) (v : gmap string string) :
  valid_labels W x → heap W !! l = None →
  valid_labels (set_heap (<[l := v]> (heap W)) W) x
  ∧ label_set (set_heap (<[l := v]> (heap W)) W) x = label_set W x.
Proof.
  destruct x as [lx|]; [|done]. intros [cx Hx] Hl. cbn.
  assert (l ≠ lx) by (intros ->; congruence).
  rewrite lookup_insert_ne by done. split; [by eexists|done].
Qed.

(** The label map [LogCallf] builds for a Node with the tags [tgs] and a
    handle with the labels [x]. *)
Lemma entry_labels_eq W (tgs : list string) (x : Labels) :
  valid_labels W x →
  ∃ lbl H',
    (if (0 <? length tgs) || (0 <? size (label_set W x)) then
       let* made := make_Labels in
       let* made :=
         (if 0 <? length tgs then
            let* made' := make_Labels in
            let* _ := map_store made' LoggerTags (Join tgs ",") in
            ret made'
          else ret made) in
       let* _ := range_Labels x (λ k v, map_store made k v) in
       ret made
     else ret None) W = Some (lbl, set_heap H' W)
    ∧ (lbl = None ↔ tgs = [] ∧ label_set W x = ∅)
    ∧ (lbl = None → H' = heap W)
    ∧ (∀ l, lbl = Some l → l ∉ dom (heap W))
    ∧ label_set (set_heap H' W) lbl
      = label_set W x
        ∪ (if 0 <? length tgs then {[ LoggerTags := Join tgs "," ]} else ∅)
    ∧ (∀ l, l ∈ dom (heap W) → H' !! l = heap W !! l).
Proof.
  intros Hx.
  set (l1 := fresh (dom (heap W))).
  assert (Hl1 : heap W !! l1 = None) by apply fresh_heap.
  destruct (0 <? length tgs) eqn:Htg; cbn [orb].
  - (* the Node has tags: a second map is made and takes the tags *)
    set (h1 := <[l1 := ∅]> (heap W)).
    set (l2 := fresh (dom h1)).
    assert (Hl2 : h1 !! l2 = None) by apply fresh_heap.
    assert (Hl2' : heap W !! l2 = None).
    { subst h1. apply lookup_insert_None in Hl2. tauto. }
    set (tl := <[LoggerTags := Join tgs ","]> (∅ : gmap string string)).
    set (h2 := <[l2 := tl]> h1).
    destruct (alloc_keeps W x l1 ∅ Hx Hl1) as [Hx1 Hs1]. fold h1 in Hx1, Hs1.
    destruct (alloc_keeps (set_heap h1 W) x l2 tl Hx1 Hl2) as [Hx2 Hs2].
    cbn [heap set_heap] in Hx2, Hs2. fold h2 in Hx2, Hs2.
    rewrite set_heap_set_heap in Hx2, Hs2.
    exists (Some l2), (<[l2 := label_set W x ∪ tl]> h2).
    split.
    { unfold bind at 1. rewrite make_Labels_eq. fold l1 h1.
      unfold bind at 1 2. rewrite make_Labels_eq. cbn [heap set_heap]. fold l2.
      unfold bind at 1.
      erewrite map_store_eq by (cbn [heap set_heap]; apply lookup_insert_eq).
      cbn [heap set_heap]. rewrite insert_insert_eq. fold tl h2.
      unfold ret at 1. unfold bind at 1. rewrite !set_heap_set_heap.
      erewrite (range_copy _ x l2 tl Hx2)
        by (cbn [heap set_heap]; apply lookup_insert_eq).
      cbn [heap set_heap]. by rewrite Hs2, Hs1. }
    split. { split; [done|]. intros [-> _]. done. }
    split; [done|].
    split. { intros l [= <-]. by apply not_elem_of_dom. }
    split. { cbn. rewrite lookup_insert_eq. cbn. subst tl.
             by rewrite insert_empty. }
    intros l [c Hc]%elem_of_dom.
    assert (l ≠ l1) by (intros ->; congruence).
    assert (l ≠ l2) by (intros ->; congruence).
    subst h2 h1. by rewrite !lookup_insert_ne by done.
  - destruct (0 <? size (label_set W x)) eqn:Hsz.
    + (* no tags, labels on the handle: one map is made and takes them *)
      destruct (alloc_keeps W x l1 ∅ Hx Hl1) as [Hx1 Hs1].
      exists (Some l1), (<[l1 := label_set W x]> (heap W)).
      split.
      { unfold bind at 1. rewrite make_Labels_eq. fold l1.
        unfold ret at 1. unfold bind at 1 2. rewrite ?set_heap_set_heap.
        erewrite (range_copy _ x l1 ∅ Hx1)
          by (cbn [heap set_heap]; apply lookup_insert_eq).
        cbn [heap set_heap]. rewrite Hs1, (right_id_L ∅ (∪)).
        by rewrite insert_insert_eq. }
      split.
      { split; [done|]. intros [_ He]. rewrite He in Hsz. done. }
      split; [done|].
      split. { intros l [= <-]. by apply not_elem_of_dom. }
      split. { cbn. rewrite lookup_insert_eq. cbn. by rewrite (right_id_L ∅ (∪)). }
      intros l [c Hc]%elem_of_dom.
      assert (l ≠ l1) by (intros ->; congruence).
      by rewrite lookup_insert_ne by done.
    + (* neither: no map *)
      exists None, (heap W). rewrite set_heap_id.
      assert (He : label_set W x = ∅).
      { apply map_size_empty_iff. apply Nat.ltb_ge in Hsz. lia. }
      split; [done|]. split.
      { split; [|done]. intros _. split; [|done].
        apply Nat.ltb_ge in Htg. destruct tgs; [done|]. cbn in Htg. lia. }
      split; [done|]. split; [done|]. split; [|done].
      cbn. by rewrite He, (left_id_L ∅ (∪)).
Qed.

(** An accepted call: the Entry handed to [module.write], and the world
    left behind. *)
Lemma LogCallf_accepted stk h calldepth lvl message args W r m :
  getModule h W = Some (r, W) →
  willWrite r lvl W = Some (true, W) →
  deref r W = Some (m, W) →
  valid_labels W (labels h) →
  let message' := trim_newline message in
  let formatted := if 0 <? length args then Sprintf message' args else message' in
  let W1 := if 0 <? length args then emit (EvSprintf message' args) W else W in
  ∃ lbl H',
    LogCallf Sprintf stk h calldepth lvl message args W
      = Some (tt, emit (EvWrite r (Entry_ lvl (call_site stk calldepth).1
                                    (call_site stk calldepth).2 (clock W)
                                    formatted lbl))
                    (set_heap H' W1))
    ∧ (lbl = None ↔ tags m = [] ∧ label_set W (labels h) = ∅)
    ∧ (lbl = None → H' = heap W)
    ∧ (∀ l, lbl = Some l → l ∉ dom (heap W))
    ∧ label_set (set_heap H' W) lbl = label_set W (labels h) ∪ tag_labels m
    ∧ (∀ l, l ∈ dom (heap W) → H' !! l = heap W !! l).
Proof.
  intros Hg Hw Hd Hv message' formatted W1. unfold LogCallf.
  rewrite (bind_Some _ _ _ _ _ Hg), (bind_Some _ _ _ _ _ Hw).
  cbn [negb]. unfold time_Now at 1. unfold bind at 1, gets at 1.
  fold (call_site stk calldepth). destruct (call_site stk calldepth) as [file line].
  fold message'.
  assert (Hfmt : (if 0 <? length args then fmt_Sprintf Sprintf message' args
                  else ret message') W = Some (formatted, W1)).
  { subst formatted W1. by destruct (0 <? length args). }
  assert (Hc1 : contexts W1 = contexts W ∧ heap W1 = heap W ∧ clock W1 = clock W).
  { subst W1. by destruct (0 <? length args). }
  destruct Hc1 as (Hc1 & Hh1 & Hk1).
  assert (Hv1 : valid_labels W1 (labels h)).
  { destruct (labels h); [|done]. cbn. by rewrite Hh1. }
  assert (Hs1 : label_set W1 (labels h) = label_set W (labels h)).
  { destruct (labels h); [|done]. cbn. by rewrite Hh1. }
  rewrite (bind_Some _ _ _ _ _ Hfmt).
  rewrite (bind_Some _ _ _ _ _ (deref_same_contexts W W1 r m Hc1 Hd)).
  rewrite (bind_Some _ _ _ _ _ (len_Labels_eq W1 (labels h) Hv1)).
  destruct (entry_labels_eq W1 (tags m) (labels h) Hv1)
    as (lbl & H' & Hrun & Hnone & Hsame & Hfresh & Hset & Hframe).
  exists lbl, H'. rewrite (bind_Some _ _ _ _ _ Hrun).
  rewrite Hs1, Hh1 in *. cbn [fst snd].
  split; [done|]. split; [done|]. split; [done|]. split; [done|].
  split; [|done]. destruct lbl; done.
Qed.

(** What it means for a call at [lvl] on [h] to be accepted. *)
Lemma IsLevelEnabled_inv W h lvl b W' :
  IsLevelEnabled h lvl W = Some (b, W') →
  W' = W ∧ ∃ r m, getModule h W = Some (r, W)
                  ∧ willWrite r lvl W = Some (b, W)
                  ∧ deref r W = Some (m, W).
Proof.
  unfold IsLevelEnabled, bind.
  destruct (getModule h W) as [[r W1]|] eqn:Hg; [|done].
  pose proof (getModule_inv _ _ _ _ Hg) as ->. intros Hw.
  destruct (willWrite_inv _ _ _ _ _ Hw) as (-> & eff & He & _).
  destruct (getEffectiveLogLevel_deref _ _ _ _ He) as [m Hm].
  split; [done|]. by exists r, m.
Qed.

Lemma Tags_inv W h tgs W' r m :
  Tags h W = Some (tgs, W') →
  getModule h W = Some (r, W) → deref r W = Some (m, W) → tgs = tags m.
Proof.
  unfold Tags. intros Ht Hg Hd.
  rewrite (bind_Some _ _ _ _ _ Hg), (bind_Some _ _ _ _ _ Hd) in Ht.
  by injection Ht as <- _.
Qed.

Lemma events_accepted W (message : string) (args : list Arg) H' ev :
  events (emit ev (set_heap H'
     (if 0 <? length args then emit (EvSprintf (trim_newline message) args) W
      else W)))
  = events W ++ format_events message args ++ [ev].
Proof.
  unfold format_events. destruct (0 <? length args); cbn.
  - by rewrite <- app_assoc.
  - done.
Qed.

(** C2.  A call at a level below the effective level of the logger returns
    with the world as it was: [fmt.Sprintf] has not been invoked and no
    Entry has been handed over, whatever the format string and the
    arguments are, for [LogCallf] and for [Logf]. *)
Theorem disabled_call_does_nothing stk h calldepth lvl message args W eff :
  EffectiveLogLevel h W = Some (eff, W) →
  level_num lvl < level_num eff →
  LogCallf Sprintf stk h calldepth lvl message args W = Some (tt, W)
  ∧ Logf Sprintf stk h lvl message args W = Some (tt, W).
Proof.
  unfold EffectiveLogLevel, bind. intros He Hlt.
  destruct (getModule h W) as [[r W1]|] eqn:Hg; [|done].
  pose proof (getModule_inv _ _ _ _ Hg) as ->.
  assert (Hw : willWrite r lvl W = Some (false, W)).
  { unfold willWrite. rewrite (bind_Some _ _ _ _ _ He). unfold ret.
    do 2 f_equal. apply Nat.leb_gt. lia. }
  split; [|unfold Logf]; by eapply LogCallf_discarded.
Qed.

(** C3.  An accepted call hands over one Entry.  Its label map is absent
    (nil) exactly when the Node has no tags and the handle carries no
    labels.  Otherwise it holds the labels of the handle over the tags of
    the Node joined with commas under the reserved key: every label of the
    handle is in it with the value the handle gives, the reserved key of a
    tagged Node holds the joined tags unless the handle has a label of that
    name, and it holds nothing else. *)
Theorem entry_labels_merged stk h calldepth lvl message args W tgs :
  IsLevelEnabled h lvl W = Some (true, W) →
  Tags h W = Some (tgs, W) →
  valid_labels W (labels h) →
  ∃ r e W',
    getModule h W = Some (r, W)
    ∧ LogCallf Sprintf stk h calldepth lvl message args W = Some (tt, W')
    ∧ events W' = events W ++ format_events message args ++ [EvWrite r e]
    ∧ (Entry_Labels e = None ↔ tgs = [] ∧ label_set W (labels h) = ∅)
    ∧ label_set W' (Entry_Labels e)
      = label_set W (labels h)
        ∪ (if 0 <? length tgs then {[ LoggerTags := Join tgs "," ]} else ∅)
    ∧ (∀ k v, label_set W (labels h) !! k = Some v →
         label_set W' (Entry_Labels e) !! k = Some v)
    ∧ (tgs ≠ [] → label_set W (labels h) !! LoggerTags = None →
         label_set W' (Entry_Labels e) !! LoggerTags = Some (Join tgs ","))
    ∧ (∀ k, label_set W (labels h) !! k = None → k ≠ LoggerTags ∨ tgs = [] →
         label_set W' (Entry_Labels e) !! k = None).
Proof.
  intros Hen Ht Hv.
  destruct (IsLevelEnabled_inv _ _ _ _ _ Hen) as (_ & r & m & Hg & Hw & Hd).
  pose proof (Tags_inv _ _ _ _ _ _ Ht Hg Hd) as ->.
  destruct (LogCallf_accepted stk h calldepth lvl message args W r m Hg Hw Hd Hv)
    as (lbl & H' & Hrun & Hnone & _ & _ & Hset & _).
  cbn zeta in Hrun. eexists r, _, _. split; [done|]. split; [exact Hrun|].
  split; [apply events_accepted|]. cbn [Entry_Labels].
  assert (Hset' : ∀ W2, heap W2 = H' →
            label_set W2 lbl = label_set W (labels h) ∪ tag_labels m).
  { intros W2 HW2. rewrite <- Hset. destruct lbl; [|done]. cbn. by rewrite HW2. }
  rewrite (Hset' _) by (by destruct (0 <? length args)).
  unfold tag_labels. split; [done|]. split; [done|]. split; [|split].
  - intros k v Hk. by apply lookup_union_Some_l.
  - intros Hne Hk. rewrite lookup_union_r by done.
    assert ((0 <? length (tags m)) = true) as -> by (by destruct (tags m)).
    apply lookup_singleton_eq.
  - intros k Hk Hor. rewrite lookup_union_r by done.
    destruct Hor as [Hne| ->]; [|done].
    destruct (0 <? length (tags m)); [|done]. by apply lookup_singleton_ne.
Qed.

(** C4.  An accepted call hands over one Entry whose [Message] is a
    resolved string: the message with one newline at its end cut off, put
    through [fmt.Sprintf] with the arguments when there are any.  The cut
    is made on the message as it is passed, before formatting: of a
    message that ends in a newline the part before that newline is used,
    and one that does not is used whole. *)
Theorem entry_message_resolved stk h calldepth lvl message args W :
  IsLevelEnabled h lvl W = Some (true, W) →
  valid_labels W (labels h) →
  let resolve (s : string) := if 0 <? length args then Sprintf s args else s in
  ∃ r e W',
    LogCallf Sprintf stk h calldepth lvl message args W = Some (tt, W')
    ∧ events W' = events W ++ format_events message args ++ [EvWrite r e]
    ∧ Message e = resolve (trim_newline message)
    ∧ (∀ s, message = s +:+ String newline "" → Message e = resolve s)
    ∧ ((∀ s, message ≠ s +:+ String newline "") → Message e = resolve message).
Proof.
  intros Hen Hv resolve.
  destruct (IsLevelEnabled_inv _ _ _ _ _ Hen) as (_ & r & m & Hg & Hw & Hd).
  destruct (LogCallf_accepted stk h calldepth lvl message args W r m Hg Hw Hd Hv)
    as (lbl & H' & Hrun & _).
  cbn zeta in Hrun. eexists r, _, _. split; [exact Hrun|].
  split; [apply events_accepted|]. cbn [Message].
  split; [done|]. split.
  - intros s ->. by rewrite trim_newline_ends.
  - intros Hne. by rewrite trim_newline_other.
Qed.

(** C5.  An accepted call invokes [fmt.Sprintf] only when arguments were
    supplied.  Without arguments nothing is formatted: the message, its
    final newline cut off, is the [Message] of the Entry as it stands (the
    message itself when it does not end in a newline), whatever [%] it
    contains, and the outcome is the same for every formatting function.  With arguments [fmt.Sprintf] is invoked once,
    on that message and the arguments. *)
Theorem format_only_with_args stk h calldepth lvl message args W :
  IsLevelEnabled h lvl W = Some (true, W) →
  valid_labels W (labels h) →
  ∃ r e W',
    LogCallf Sprintf stk h calldepth lvl message args W = Some (tt, W')
    ∧ (args = [] →
         Message e = trim_newline message
         ∧ ((∀ s, message ≠ s +:+ String newline "") → Message e = message)
         ∧ events W' = events W ++ [EvWrite r e]
         ∧ ∀ Sprintf', LogCallf Sprintf' stk h calldepth lvl message args W
                       = Some (tt, W'))
    ∧ (args ≠ [] →
         Message e = Sprintf (trim_newline message) args
         ∧ events W' = events W ++ [EvSprintf (trim_newline message) args;
                                    EvWrite r e]).
Proof.
  intros Hen Hv.
  destruct (IsLevelEnabled_inv _ _ _ _ _ Hen) as (_ & r & m & Hg & Hw & Hd).
  destruct (LogCallf_accepted stk h calldepth lvl message args W r m Hg Hw Hd Hv)
    as (lbl & H' & Hrun & _).
  cbn zeta in Hrun.
  exists r,
    (Entry_ lvl (call_site stk calldepth).1 (call_site stk calldepth).2 (clock W)
       (if 0 <? length args then Sprintf (trim_newline message) args
        else trim_newline message) lbl).
  eexists. split; [exact Hrun|].
  rewrite events_accepted. unfold format_events. cbn [Message]. split.
  - intros ->. split; [done|].
    split; [intros Hne; by apply trim_newline_other|].
    split; [done|]. intros Sprintf'.
    transitivity (LogCallf Sprintf stk h calldepth lvl message [] W);
      [|exact Hrun].
    unfold LogCallf.
    rewrite !(bind_Some _ _ _ _ _ Hg), !(bind_Some _ _ _ _ _ Hw). done.
  - intros Hne. by destruct args.
Qed.

(** C7.  Each convenience method is the call of [Logf] at its level that
    its body makes, with the same message and arguments; the call site of
    that call is the line of the method. *)
Theorem convenience_calls_are_Logf stk h message args :
  Tracef Sprintf stk h message args
    = Logf Sprintf ((logger_go, 214) :: stk) h TRACE message args
  ∧ Debugf Sprintf stk h message args
    = Logf Sprintf ((logger_go, 209) :: stk) h DEBUG message args
  ∧ Infof Sprintf stk h message args
    = Logf Sprintf ((logger_go, 204) :: stk) h INFO message args
  ∧ Warningf Sprintf stk h message args
    = Logf Sprintf ((logger_go, 199) :: stk) h WARNING message args
  ∧ Errorf Sprintf stk h message args
    = Logf Sprintf ((logger_go, 194) :: stk) h ERROR message args
  ∧ Criticalf Sprintf stk h message args
    = Logf Sprintf ((logger_go, 189) :: stk) h CRITICAL message args.
Proof. repeat split. Qed.

(** The place an Entry reports for a convenience method is the place the
    method was called from. *)
Lemma convenience_call_site (stk : list Frame) (wrapper : Frame) :
  call_site ((logger_go, 128) :: wrapper :: stk) 2
  = default ("???", 0) (stk !! 0).
Proof. unfold call_site. cbn. by destruct stk. Qed.

(** Called directly, [Logf] ascends as far and reports the place its
    caller was called from. *)
Lemma Logf_call_site (stk : list Frame) :
  call_site ((logger_go, 128) :: stk) 2 = default ("???", 0) (stk !! 1).
Proof. unfold call_site. cbn. by destruct (stk !! 1). Qed.

End Logging.

(** The world of the examples, as the hypotheses above see it. *)
Lemma sample_enabled (h : Logger) :
  h = testing_logger ∨ h = tagged_logger →
  IsLevelEnabled h INFO sample_world = Some (true, sample_world)
  ∧ valid_labels sample_world (labels h).
Proof. intros [-> | ->]; (split; [by vm_compute|by eexists]). Defined.

Lemma disabled_call_does_nothing_witness :
  EffectiveLogLevel testing_logger sample_world = Some (INFO, sample_world)
  ∧ level_num DEBUG < level_num INFO
  ∧ LogCallf goSprintf sample_stack testing_logger 1 DEBUG "%d" [VString "x"]
      sample_world = Some (tt, sample_world)
  ∧ Logf goSprintf sample_stack testing_logger DEBUG "%d" [VString "x"]
      sample_world = Some (tt, sample_world).
Proof.
  assert (He : EffectiveLogLevel testing_logger sample_world
               = Some (INFO, sample_world)) by (by vm_compute).
  assert (Hlt : level_num DEBUG < level_num INFO) by (cbn; lia).
  split; [exact He|]. split; [exact Hlt|].
  exact (disabled_call_does_nothing goSprintf sample_stack testing_logger 1
           DEBUG "%d" [VString "x"] sample_world INFO He Hlt).
Defined.

Lemma entry_labels_merged_witness :
  IsLevelEnabled tagged_logger INFO sample_world = Some (true, sample_world)
  ∧ Tags tagged_logger sample_world = Some (["tag1"; "tag2"], sample_world)
  ∧ valid_labels sample_world (labels tagged_logger)
  ∧ ∃ e W',
      Logf goSprintf sample_stack tagged_logger INFO "with tags and labels" []
        sample_world = Some (tt, W')
      ∧ last (events W') = Some (EvWrite (1, "testing.withtags") e)
      ∧ label_set W' (Entry_Labels e) !! LoggerTags = Some "tag1,tag2"
      ∧ label_set W' (Entry_Labels e) !! "hello" = Some "world".
Proof.
  destruct (sample_enabled tagged_logger (or_intror eq_refl)) as [Hen Hv].
  assert (Ht : Tags tagged_logger sample_world
               = Some (["tag1"; "tag2"], sample_world)) by (by vm_compute).
  split; [exact Hen|]. split; [exact Ht|]. split; [exact Hv|].
  destruct (entry_labels_merged goSprintf ((logger_go, 128) :: sample_stack)
              tagged_logger 2 INFO "with tags and labels" [] sample_world
              ["tag1"; "tag2"] Hen Ht Hv)
    as (r & e & W' & Hg & Hrun & Hev & _ & _ & Hadhoc & Htags & _).
  injection Hg as <-.
  exists e, W'. split; [exact Hrun|]. split.
  { rewrite Hev. reflexivity. }
  split.
  - apply Htags; [done|]. by vm_compute.
  - apply Hadhoc. by vm_compute.
Defined.

Lemma entry_message_resolved_witness :
  IsLevelEnabled testing_logger INFO sample_world = Some (true, sample_world)
  ∧ valid_labels sample_world (labels testing_logger)
  ∧ ∃ r e W',
      Logf goSprintf sample_stack testing_logger INFO
        ("%d of %s" +:+ String newline "") [VInt 3; VString "4"] sample_world
        = Some (tt, W')
      ∧ last (events W') = Some (EvWrite r e)
      ∧ Message e = "3 of 4".
Proof.
  destruct (sample_enabled testing_logger (or_introl eq_refl)) as [Hen Hv].
  split; [exact Hen|]. split; [exact Hv|].
  destruct (entry_message_resolved goSprintf ((logger_go, 128) :: sample_stack)
              testing_logger 2 INFO ("%d of %s" +:+ String newline "")
              [VInt 3; VString "4"] sample_world Hen Hv)
    as (r & e & W' & Hrun & Hev & _ & Hcut & _).
  exists r, e, W'. split; [exact Hrun|]. split.
  { rewrite Hev. reflexivity. }
  exact (Hcut "%d of %s" eq_refl).
Defined.

Lemma format_only_with_args_witness :
  IsLevelEnabled testing_logger INFO sample_world = Some (true, sample_world)
  ∧ valid_labels sample_world (labels testing_logger)
  ∧ ∃ r e W',
      Logf goSprintf sample_stack testing_logger INFO "100% done, %d left" []
        sample_world = Some (tt, W')
      ∧ Message e = "100% done, %d left"
      ∧ events W' = [EvWrite r e].
Proof.
  destruct (sample_enabled testing_logger (or_introl eq_refl)) as [Hen Hv].
  split; [exact Hen|]. split; [exact Hv|].
  destruct (format_only_with_args goSprintf ((logger_go, 128) :: sample_stack)
              testing_logger 2 INFO "100% done, %d left" [] sample_world Hen Hv)
    as (r & e & W' & Hrun & Hnone & _).
  destruct (Hnone eq_refl) as (Hm & _ & Hev & _).
  exists r, e, W'. split; [exact Hrun|]. split; [exact Hm|exact Hev].
Defined.

(** ** The zero value and the navigation of the hierarchy *)

Section Navigation.
Context {Arg : Type} (Sprintf : string → list Arg → string).
Implicit Types W : @World Arg.

(** [WithLabels] uses its receiver only to build the handle it returns. *)
Lemma WithLabels_impl W (i : option modref) (x m : Labels) :
  WithLabels (Logger_ i x) m W =
    match WithLabels (Logger_ None x) m W with
    | Some (r, W') => Some (Logger_ i (labels r), W')
    | None => None
    end.
Proof.
  unfold WithLabels, bind.
  destruct (len_Labels m W) as [[n W1]|]; [|done].
  destruct (n =? 0); [done|].
  destruct (make_Labels W1) as [[f W2]|]; [|done]. cbn [labels].
  by destruct (range_Labels m _ W2) as [[[] W3]|].
Qed.

Lemma defaultContext_root_heap W W' r :
  contexts W' = contexts W →
  defaultContext_root W = Some (r, W) → defaultContext_root W' = Some (r, W').
Proof.
  unfold defaultContext_root, bind, gets, lift, ret. intros ->.
  destruct (contexts W !! defaultContext); [|done]. by intros [= ->].
Qed.

Lemma WithLabels_contexts W h m r W' :
  WithLabels h m W = Some (r, W') → contexts W' = contexts W.
Proof.
  unfold WithLabels, bind. intros H.
  destruct (len_Labels m W) as [[n W1]|] eqn:Hn; [|done].
  destruct (len_Labels_inv _ _ _ _ Hn) as (Hv & _ & ->).
  rewrite <- (bind_Some _ (λ n, if n =? 0 then ret h else _) _ _ _ Hn) in H.
  change (WithLabels h m W = Some (r, W')) in H.
  rewrite (WithLabels_eq W h m Hv) in H.
  destruct (size (label_set W m) =? 0); by injection H as <- <-.
Qed.

(** C8.  A handle whose module reference is nil, the zero value among
    them, stands for the root of the default Registry: [getModule] gives
    that root, and every method gives what it gives on the handle that
    refers to the root with the same labels ([WithLabels], which does not
    look at the Node, returns handles that differ in the reference only and
    stand for the same Node).  The root Node being there, the methods that
    read the Node return its name, level, tags and parent: no missing Node
    is dereferenced. *)
Theorem zero_value_is_default_root W r m (x : Labels) :
  defaultContext_root W = Some (r, W) →
  deref r W = Some (m, W) →
  let zero := Logger_ None x in
  let dflt := Logger_ (Some r) x in
  getModule zero W = Some (r, W)
  ∧ Root zero W = Root dflt W
  ∧ Parent zero W = Parent dflt W
  ∧ (∀ n, Child zero n W = Child dflt n W)
  ∧ (∀ n tgs, ChildWithTags zero n tgs W = ChildWithTags dflt n tgs W)
  ∧ Name zero W = Name dflt W
  ∧ LogLevel zero W = LogLevel dflt W
  ∧ Tags zero W = Tags dflt W
  ∧ EffectiveLogLevel zero W = EffectiveLogLevel dflt W
  ∧ (∀ lvl, SetLogLevel zero lvl W = SetLogLevel dflt lvl W)
  ∧ (∀ lvl, IsLevelEnabled zero lvl W = IsLevelEnabled dflt lvl W)
  ∧ (IsErrorEnabled zero W = IsErrorEnabled dflt W
     ∧ IsWarningEnabled zero W = IsWarningEnabled dflt W
     ∧ IsInfoEnabled zero W = IsInfoEnabled dflt W
     ∧ IsDebugEnabled zero W = IsDebugEnabled dflt W
     ∧ IsTraceEnabled zero W = IsTraceEnabled dflt W)
  ∧ (∀ stk d lvl msg args,
       LogCallf Sprintf stk zero d lvl msg args W
       = LogCallf Sprintf stk dflt d lvl msg args W)
  ∧ (∀ stk lvl msg args,
       Logf Sprintf stk zero lvl msg args W = Logf Sprintf stk dflt lvl msg args W)
  ∧ (∀ stk msg args,
       Tracef Sprintf stk zero msg args W = Tracef Sprintf stk dflt msg args W
       ∧ Debugf Sprintf stk zero msg args W = Debugf Sprintf stk dflt msg args W
       ∧ Infof Sprintf stk zero msg args W = Infof Sprintf stk dflt msg args W
       ∧ Warningf Sprintf stk zero msg args W = Warningf Sprintf stk dflt msg args W
       ∧ Errorf Sprintf stk zero msg args W = Errorf Sprintf stk dflt msg args W
       ∧ Criticalf Sprintf stk zero msg args W
         = Criticalf Sprintf stk dflt msg args W)
  ∧ (∀ lbls, same_handle (WithLabels zero lbls W) (WithLabels dflt lbls W))
  ∧ Name zero W = Some (module_Name m, W)
  ∧ LogLevel zero W = Some (level m, W)
  ∧ Tags zero W = Some (tags m, W)
  ∧ Parent zero W = Some (Logger_ (Some (parent m)) None, W).
Proof.
  intros Hroot Hd zero dflt.
  assert (Hz : getModule zero W = Some (r, W)) by exact Hroot.
  assert (Hf : getModule dflt W = Some (r, W)) by done.
  assert (Hlog : ∀ stk d lvl msg args,
            LogCallf Sprintf stk zero d lvl msg args W
            = LogCallf Sprintf stk dflt d lvl msg args W).
  { intros. unfold LogCallf.
    by rewrite (bind_Some _ _ _ _ _ Hz), (bind_Some _ _ _ _ _ Hf). }
  split; [exact Hz|].
  repeat match goal with
  | |- _ ∧ _ => split
  | |- ∀ _, _ => intro
  end;
  try (unfold IsErrorEnabled, IsWarningEnabled, IsInfoEnabled, IsDebugEnabled,
         IsTraceEnabled, Tracef, Debugf, Infof, Warningf, Errorf, Criticalf, Logf);
  try apply Hlog;
  try (unfold Root, Parent, Child, ChildWithTags, Name, LogLevel, Tags,
         EffectiveLogLevel, SetLogLevel, IsLevelEnabled;
       rewrite ?(bind_Some _ _ _ _ _ Hz), ?(bind_Some _ _ _ _ _ Hf),
         ?(bind_Some _ _ _ _ _ Hd); done).
  (* WithLabels *)
  unfold zero, dflt, same_handle. rewrite (WithLabels_impl W (Some r)).
  destruct (WithLabels (Logger_ None x) lbls W) as [[h W']|] eqn:Hw; [|done].
  split; [done|]. split; [done|].
  pose proof (WithLabels_contexts _ _ _ _ _ Hw) as Hc.
  assert (impl h = None) as Hi.
  { unfold WithLabels, bind in Hw.
    destruct (len_Labels lbls W) as [[n W1]|]; [|done].
    destruct (n =? 0); [by injection Hw as <- _|].
    destruct (make_Labels W1) as [[f W2]|]; [|done]. cbn [labels] in Hw.
    destruct (range_Labels lbls _ W2) as [[[] W3]|]; [|done].
    by injection Hw as <- _. }
  unfold getModule at 1. rewrite Hi. cbn.
  by apply (defaultContext_root_heap W W' r Hc).
Qed.

(** C9.  [Parent] returns a handle on the parent of the Node, with no
    labels (a nil map), whatever labels the receiver carries; it returns
    whenever the Node of the receiver exists, and changes nothing. *)
Theorem Parent_carries_no_labels W h :
  (∀ p W', Parent h W = Some (p, W') →
     labels p = None ∧ label_set W' (labels p) = ∅ ∧ W' = W)
  ∧ (∀ r m, getModule h W = Some (r, W) → deref r W = Some (m, W) →
       Parent h W = Some (Logger_ (Some (parent m)) None, W)).
Proof.
  split.
  - intros p W'. unfold Parent, bind.
    destruct (getModule h W) as [[r W1]|] eqn:Hg; [|done].
    pose proof (getModule_inv _ _ _ _ Hg) as ->.
    destruct (deref r W) as [[m W1]|] eqn:Hd; [|done].
    pose proof (deref_inv _ _ _ _ Hd) as ->.
    unfold ret. by intros [= <- <-].
  - intros r m Hg Hd. unfold Parent.
    by rewrite (bind_Some _ _ _ _ _ Hg), (bind_Some _ _ _ _ _ Hd).
Qed.

End Navigation.

Lemma zero_value_is_default_root_witness :
  defaultContext_root sample_world = Some ((defaultContext, ""), sample_world)
  ∧ deref (defaultContext, "") sample_world = Some (sample_root_node, sample_world)
  ∧ getModule (Logger_ None None) sample_world
    = Some ((defaultContext, ""), sample_world)
  ∧ Name (Logger_ None None) sample_world = Some ("<root>", sample_world)
  ∧ LogLevel (Logger_ None None) sample_world = Some (WARNING, sample_world)
  ∧ (∀ n, Child (Logger_ None None) n sample_world
          = Child (Logger_ (Some (defaultContext, "")) None) n sample_world).
Proof.
  assert (Hr : defaultContext_root sample_world
               = Some ((defaultContext, ""), sample_world)) by (by vm_compute).
  assert (Hd : deref (defaultContext, "") sample_world
               = Some (sample_root_node, sample_world)) by (by vm_compute).
  split; [exact Hr|]. split; [exact Hd|].
  destruct (zero_value_is_default_root goSprintf sample_world
              (defaultContext, "") sample_root_node None Hr Hd)
    as (Hg & _ & _ & Hchild & _ & _ & _ & _ & _ & _ & _ & _ & _ & _ & _ & _
        & Hname & Hlevel & _).
  split; [exact Hg|]. split; [exact Hname|]. split; [exact Hlevel|exact Hchild].
Defined.

Lemma Parent_carries_no_labels_witness :
  getModule tagged_logger sample_world = Some ((1, "testing.withtags"), sample_world)
  ∧ deref (1, "testing.withtags") sample_world = Some (sample_tagged_node, sample_world)
  ∧ label_set sample_world (labels tagged_logger) !! "hello" = Some "world"
  ∧ Parent tagged_logger sample_world
    = Some (Logger_ (Some (1, "testing")) None, sample_world).
Proof.
  assert (Hg : getModule tagged_logger sample_world
               = Some ((1, "testing.withtags"), sample_world)) by done.
  assert (Hd : deref (1, "testing.withtags") sample_world
               = Some (sample_tagged_node, sample_world)) by (by vm_compute).
  split; [exact Hg|]. split; [exact Hd|]. split; [by vm_compute|].
  exact (proj2 (Parent_carries_no_labels (Arg:=GoValue) sample_world tagged_logger)
           _ _ Hg Hd).
Defined.

(** ** The Registry: finding and creating Nodes *)

Section Registry.
Context {Arg : Type}.
Implicit Types W : @World Arg.
Implicit Types ms : gmap string module.

Lemma prefixes_go_app (par acc x y : string) :
  prefixes_go par acc (x +:+ "." +:+ y)
  = prefixes_go par acc x ++ prefixes_go (acc +:+ x) (acc +:+ x +:+ ".") y.
Proof.
  change ("." +:+ y) with (String "."%char y).
  revert par acc. induction x as [|c x IH]; intros par acc.
  - cbn. by rewrite !app_empty_r.
  - rewrite app_cons. cbn [prefixes_go].
    destruct (Ascii.eqb c ".") eqn:Hc.
    + apply Ascii.eqb_eq in Hc as ->. rewrite IH. cbn [app]. do 3 f_equal.
      all: by rewrite app_assoc_string.
    + rewrite IH. do 2 f_equal. all: by rewrite app_assoc_string.
Qed.

Lemma prefixes_app (x y : string) :
  prefixes (x +:+ "." +:+ y) = prefixes x ++ prefixes_go x (x +:+ ".") y.
Proof. unfold prefixes. by rewrite prefixes_go_app. Qed.

(** The full name is the last of its prefixes. *)
Lemma prefixes_go_full (par acc rest : string) :
  ∃ p, (acc +:+ rest, p) ∈ prefixes_go par acc rest.
Proof.
  revert par acc. induction rest as [|c rest IH]; intros par acc.
  - exists par. rewrite app_empty_r. cbn. apply list_elem_of_singleton. done.
  - cbn [prefixes_go]. destruct (Ascii.eqb c ".") eqn:Hc.
    + apply Ascii.eqb_eq in Hc as ->.
      destruct (IH acc (acc +:+ ".")) as [p Hp]. exists p.
      rewrite app_assoc_string in Hp. by apply list_elem_of_further.
    + destruct (IH par (acc +:+ String c "")) as [p Hp]. exists p.
      by rewrite app_assoc_string in Hp.
Qed.

Lemma prefixes_full (n : string) : ∃ p, (n, p) ∈ prefixes n.
Proof. apply (prefixes_go_full "" "" n). Qed.

Lemma ensure_present c ms kp :
  is_Some (ms !! kp.1) → ensure c ms kp = ms.
Proof. unfold ensure. by intros [m ->]. Qed.

Lemma ensure_keeps c ms kp k m :
  ms !! k = Some m → ensure c ms kp !! k = Some m.
Proof.
  intros Hk. unfold ensure. destruct (ms !! kp.1) eqn:Hp; [done|].
  rewrite lookup_insert_ne; [done|]. intros <-. congruence.
Qed.

Lemma ensure_adds c ms kp : is_Some (ensure c ms kp !! kp.1).
Proof.
  unfold ensure. destruct (ms !! kp.1) eqn:Hp; [by rewrite Hp|].
  rewrite lookup_insert_eq. by eexists.
Qed.

Lemma foldl_ensure_keeps c l ms k m :
  ms !! k = Some m → foldl (ensure c) ms l !! k = Some m.
Proof.
  revert ms. induction l as [|kp l IH]; intros ms Hk; [done|].
  cbn. apply IH. by apply ensure_keeps.
Qed.

Lemma foldl_ensure_covers c l ms kp :
  kp ∈ l → is_Some (foldl (ensure c) ms l !! kp.1).
Proof.
  revert ms. induction l as [|kp' l IH]; intros ms Hin.
  - by apply elem_of_nil in Hin.
  - cbn. apply elem_of_cons in Hin as [->|Hin]; [|by apply IH].
    destruct (ensure_adds c ms kp') as [m Hm].
    exists m. by apply foldl_ensure_keeps.
Qed.

Lemma foldl_ensure_noop c l ms :
  (∀ kp, kp ∈ l → is_Some (ms !! kp.1)) → foldl (ensure c) ms l = ms.
Proof.
  induction l as [|kp l IH]; intros Hall; [done|].
  cbn. rewrite ensure_present by (apply Hall; left).
  apply IH. intros kp' Hin. apply Hall. by right.
Qed.

(** Finding the Nodes of a name a second time creates nothing. *)
Lemma foldl_ensure_idemp c l ms :
  foldl (ensure c) (foldl (ensure c) ms l) l = foldl (ensure c) ms l.
Proof. apply foldl_ensure_noop. intros kp. apply foldl_ensure_covers. Qed.

Lemma ensure_ok c ms kp : context_ok c ms → context_ok c (ensure c ms kp).
Proof.
  intros Hok k m. unfold ensure. destruct (ms !! kp.1) eqn:Hp; [apply Hok|].
  rewrite lookup_insert. case_decide as Hk.
  - intros [= <-]. by subst.
  - apply Hok.
Qed.

Lemma foldl_ensure_ok c l ms :
  context_ok c ms → context_ok c (foldl (ensure c) ms l).
Proof.
  revert ms. induction l as [|kp l IH]; intros ms Hok; [done|].
  cbn. apply IH. by apply ensure_ok.
Qed.

Lemma add_tags_nil (m : module) : add_tags [] m = m.
Proof. by destruct m. Qed.

(** [GetLogger] without tags. *)
Lemma GetLogger_eq W c ctx n :
  contexts W !! c = Some ctx →
  GetLogger c n [] W =
    Some (Logger_ (Some (c, ToLower n)) None,
          set_contexts
            (<[c := Context_ (root ctx)
                      (foldl (ensure c) (modules ctx) (prefixes (ToLower n)))]>
               (contexts W)) W).
Proof.
  intros Hc. unfold GetLogger, bind, gets, lift, modify, ret. rewrite Hc.
  rewrite alter_id; [done|]. intros m _. apply add_tags_nil.
Qed.

End Registry.

(** ** Child *)

Section ChildLaw.
Context {Arg : Type}.
Implicit Types W : @World Arg.

Lemma deref_lookup W r m :
  deref r W = Some (m, W) →
  ∃ ctx, contexts W !! r.1 = Some ctx ∧ modules ctx !! r.2 = Some m.
Proof.
  unfold deref, bind, gets, lift.
  destruct (contexts W !! r.1) as [ctx|]; [|done].
  destruct (modules ctx !! r.2) eqn:Hm; [|done].
  intros [= ->]. eauto.
Qed.

Lemma child_path_nonempty (m : module) (a : string) :
  name m ≠ "" ∨ a ≠ "" → ToLower (child_path m a) ≠ "".
Proof.
  intros Hor He. apply (proj1 (ToLower_empty _)) in He.
  unfold child_path in He. case_decide as Hn.
  - destruct Hor; done.
  - by apply app_empty_inv in He as [? _].
Qed.

Lemma child_path_compose (m : module) (a b : string) :
  ToLower (child_path m (a +:+ "." +:+ b))
  = ToLower (child_path m a) +:+ "." +:+ ToLower b.
Proof.
  unfold child_path. case_decide.
  - by rewrite !ToLower_app.
  - rewrite !ToLower_app. by rewrite !app_assoc_string.
Qed.

(** [Child] resolves its path in the Registry of the Node. *)
Lemma Child_eq W h a r m :
  getModule h W = Some (r, W) → deref r W = Some (m, W) →
  Child h a W = GetLogger (context m) (child_path m a) [] W.
Proof.
  intros Hg Hd. unfold Child.
  by rewrite (bind_Some _ _ _ _ _ Hg), (bind_Some _ _ _ _ _ Hd).
Qed.


(** C6, as amended.  In a Registry whose Nodes are indexed by their names,
    for a handle [h] on an existing Node: [Child] resolves the name of the
    Node, a dot and the suffix, or the suffix alone at the root, with
    [GetLogger] of the Registry the Node belongs to; it returns a handle on
    a Node of that Registry, without labels, and changes no other Registry,
    the default one included.  For names [a] and [b], [a] not empty or the
    Node not the root, [h.Child(a).Child(b)] returns the handle, and leaves
    the world, that [h.Child(a.b)] does. *)
Theorem Child_composes W h a b r m :
  registry_ok W →
  getModule h W = Some (r, W) →
  deref r W = Some (m, W) →
  (∀ n, ∃ l W',
      Child h n W = Some (l, W')
      ∧ Child h n W
        = GetLogger (context m)
            (if decide (name m = "") then n else name m +:+ "." +:+ n) [] W
      ∧ context m = r.1
      ∧ impl l = Some (r.1, ToLower (child_path m n))
      ∧ labels l = None
      ∧ ∀ c', c' ≠ r.1 → contexts W' !! c' = contexts W !! c')
  ∧ (name m ≠ "" ∨ a ≠ "" →
       (let* c := Child h a in Child c b) W = Child h (a +:+ "." +:+ b) W).
Proof.
  intros Hok Hg Hd.
  destruct (deref_lookup W r m Hd) as (ctx & Hctx & Hm).
  destruct (Hok _ _ Hctx _ _ Hm) as [Hname Hcontext].
  destruct r as [c k]. cbn [fst snd] in *.
  assert (Hchild : ∀ n, Child h n W
    = Some (Logger_ (Some (c, ToLower (child_path m n))) None,
            set_contexts
              (<[c := Context_ (root ctx)
                        (foldl (ensure c) (modules ctx)
                           (prefixes (ToLower (child_path m n))))]>
                 (contexts W)) W)).
  { intros n. rewrite (Child_eq W h n _ m Hg Hd), Hcontext.
    by rewrite (GetLogger_eq W c ctx _ Hctx). }
  split.
  { intros n. eexists _, _. split; [apply Hchild|].
    split; [by rewrite (Child_eq W h n _ m Hg Hd)|].
    split; [done|]. split; [done|]. split; [done|].
    intros c' Hc'. cbn. by rewrite lookup_insert_ne. }
  intros Hor.
  set (n1 := ToLower (child_path m a)).
  set (ms1 := foldl (ensure c) (modules ctx) (prefixes n1)).
  set (W1 := set_contexts (<[c := Context_ (root ctx) ms1]> (contexts W)) W).
  pose proof (Hchild a) as H1. fold n1 ms1 W1 in H1.
  (* the Node of the first child *)
  assert (Hok1 : context_ok c ms1).
  { apply foldl_ensure_ok. by apply Hok. }
  destruct (prefixes_full n1) as [p Hp].
  destruct (foldl_ensure_covers c (prefixes n1) (modules ctx) _ Hp) as [m1 Hm1].
  fold ms1 in Hm1. cbn [fst] in Hm1.
  destruct (Hok1 _ _ Hm1) as [Hname1 Hcontext1].
  assert (Hctx1 : contexts W1 !! c = Some (Context_ (root ctx) ms1)).
  { cbn. apply lookup_insert_eq. }
  assert (Hd1 : deref (c, n1) W1 = Some (m1, W1)).
  { unfold deref, bind, gets, lift. cbn [fst snd]. rewrite Hctx1. cbn.
    by rewrite Hm1. }
  assert (Hn1 : n1 ≠ "") by (by apply child_path_nonempty).
  assert (Hpath1 : ToLower (child_path m1 b) = n1 +:+ "." +:+ ToLower b).
  { unfold child_path. rewrite Hname1. rewrite decide_False by done.
    rewrite !ToLower_app. subst n1. by rewrite ToLower_idemp. }
  rewrite (bind_Some _ _ _ _ _ H1), Hchild, child_path_compose. fold n1.
  rewrite (Child_eq W1 (Logger_ (Some (c, n1)) None) b (c, n1) m1 eq_refl Hd1),
    Hcontext1.
  rewrite (GetLogger_eq W1 c _ _ Hctx1), Hpath1. cbn [root modules].
  f_equal. f_equal. subst W1. cbn.
  rewrite insert_insert_eq.
  assert (foldl (ensure c) ms1 (prefixes (n1 +:+ "." +:+ ToLower b))
          = foldl (ensure c) (modules ctx)
              (prefixes (n1 +:+ "." +:+ ToLower b))) as ->; [|done].
  rewrite prefixes_app, !foldl_app. unfold ms1.
  by rewrite foldl_ensure_idemp.
Qed.

End ChildLaw.

(** C6, refuted as stated: at the root, with the empty name for [a],
    [Child("").Child("x")] is the logger [x], and [Child(".x")], the
    composed name, is the logger [.x], another Node. *)
Lemma Child_empty_name_at_root :
  ∃ l1 W1 l2 W2,
    (let* c := Child sample_root "" in Child c "x") sample_world = Some (l1, W1)
    ∧ Child sample_root ("" +:+ "." +:+ "x") sample_world = Some (l2, W2)
    ∧ impl l1 = Some (1, "x")
    ∧ impl l2 = Some (1, ".x")
    ∧ l1 ≠ l2.
Proof.
  destruct ((let* c := Child sample_root "" in Child c "x") sample_world)
    as [[l1 W1]|] eqn:E1; vm_compute in E1; [|discriminate].
  destruct (Child sample_root ("" +:+ "." +:+ "x") sample_world)
    as [[l2 W2]|] eqn:E2; vm_compute in E2; [|discriminate].
  injection E1 as <- <-. injection E2 as <- <-.
  eexists _, _, _, _. repeat split. discriminate.
Qed.

Lemma sample_world_ok : registry_ok sample_world.
Proof.
  intros c ctx Hc k m Hk. unfold sample_world in Hc. cbn in Hc.
  apply lookup_insert_Some in Hc as [[<- <-]|[_ Hc]].
  - cbn in Hk. apply lookup_singleton_Some in Hk as [<- <-]. done.
  - apply lookup_singleton_Some in Hc as [<- <-]. cbn in Hk.
    apply lookup_insert_Some in Hk as [[<- <-]|[_ Hk]]; [done|].
    apply lookup_insert_Some in Hk as [[<- <-]|[_ Hk]]; [done|].
    apply lookup_singleton_Some in Hk as [<- <-]. done.
Defined.

Lemma Child_composes_witness :
  registry_ok sample_world
  ∧ getModule testing_logger sample_world = Some ((1, "testing"), sample_world)
  ∧ (∃ m, deref (1, "testing") sample_world = Some (m, sample_world)
          ∧ name m ≠ "")
  ∧ (let* c := Child testing_logger "A" in Child c "b") sample_world
    = Child testing_logger "A.b" sample_world
  ∧ ∃ l W', Child testing_logger "A.b" sample_world = Some (l, W')
            ∧ impl l = Some (1, "testing.a.b")
            ∧ contexts W' !! defaultContext = Some sample_default.
Proof.
  assert (Hg : getModule testing_logger sample_world
               = Some ((1, "testing"), sample_world)) by done.
  assert (Hd : deref (1, "testing") sample_world
               = Some (Module_ "testing" UNSPECIFIED (1, "") 1 [], sample_world))
    by (by vm_compute).
  split; [exact sample_world_ok|]. split; [exact Hg|].
  split; [eexists; split; [exact Hd|done]|].
  destruct (Child_composes sample_world testing_logger "A" "b" _ _
              sample_world_ok Hg Hd) as [Hres Hcomp].
  split; [apply Hcomp; by left|].
  destruct (Hres "A.b") as (l & W' & Hrun & _ & _ & Himpl & _ & Hother).
  exists l, W'. split; [exact Hrun|].
  split; [exact Himpl|]. rewrite (Hother defaultContext) by done. reflexivity.
Defined.

(** * Further properties of logger.go *)

(** ** Where and when an Entry is made *)

Section Entries.
Context {Arg : Type} (Sprintf : string → list Arg → string).
Implicit Types W : @World Arg.

Lemma call_site_eq (stk : list Frame) (calldepth : nat) :
  call_site stk calldepth = default ("???", 0) (stk !! calldepth).
Proof. unfold call_site. rewrite Nat.add_1_r. cbn. by destruct (stk !! calldepth). Qed.

Lemma writes_app (a b : list (@Event Arg)) : writes (a ++ b) = writes a ++ writes b.
Proof. apply omap_app. Qed.

Lemma writes_accepted W (message : string) (args : list Arg) H' r e :
  writes (events (emit (EvWrite r e) (set_heap H'
     (if 0 <? length args then emit (EvSprintf (trim_newline message) args) W
      else W))))
  = writes (events W) ++ [(r, e)].
Proof.
  rewrite events_accepted, !writes_app. unfold format_events.
  by destruct (0 <? length args).
Qed.

(** What a call that returns has gone through. *)
Lemma LogCallf_inv stk h calldepth lvl message args W W' :
  LogCallf Sprintf stk h calldepth lvl message args W = Some (tt, W') →
  ∃ r b, getModule h W = Some (r, W)
    ∧ willWrite r lvl W = Some (b, W)
    ∧ (b = false → W' = W)
    ∧ (b = true → valid_labels W (labels h) ∧ ∃ m, deref r W = Some (m, W)).
Proof.
  unfold LogCallf, bind at 1.
  destruct (getModule h W) as [[r W1]|] eqn:Hg; [|done].
  pose proof (getModule_inv _ _ _ _ Hg) as ->. unfold bind at 1.
  destruct (willWrite r lvl W) as [[b W1]|] eqn:Hw; [|done].
  destruct (willWrite_inv _ _ _ _ _ Hw) as (-> & eff & Heff & _).
  destruct (getEffectiveLogLevel_deref _ _ _ _ Heff) as [m Hm].
  intros Hrun. exists r, b. split; [done|]. split; [done|].
  destruct b; cbn [negb] in Hrun.
  - split; [done|]. intros _. split; [|by exists m].
    unfold bind at 1, time_Now, gets in Hrun.
    destruct (match runtime_Caller _ _ _ with Some fl => fl | None => _ end)
      as [file line].
    set (W1 := if 0 <? length args
               then emit (EvSprintf (trim_newline message) args) W else W).
    assert (Hh1 : heap W1 = heap W) by (subst W1; by destruct (0 <? length args)).
    assert (Hfmt : ∃ fm, (if 0 <? length args
                          then fmt_Sprintf Sprintf (trim_newline message) args
                          else ret (trim_newline message)) W = Some (fm, W1)).
    { subst W1. destruct (0 <? length args); by eexists. }
    destruct Hfmt as [fm Hfmt]. rewrite (bind_Some _ _ _ _ _ Hfmt) in Hrun.
    unfold bind at 1 in Hrun.
    destruct (deref r W1) as [[m1 W2]|] eqn:Hd1; [|done].
    pose proof (deref_inv _ _ _ _ Hd1) as ->. unfold bind at 1 in Hrun.
    destruct (len_Labels (labels h) W1) as [[n W2]|] eqn:Hn; [|done].
    destruct (len_Labels_inv _ _ _ _ Hn) as (Hv & _ & _).
    destruct (labels h); [|done]. cbn in *. by rewrite <- Hh1.
  - split; [|done]. intros _. by injection Hrun as <-.
Qed.


(** The Entry an accepted call of [Logf] hands over. *)
Lemma Logf_entry stk h lvl message args W :
  IsLevelEnabled h lvl W = Some (true, W) →
  valid_labels W (labels h) →
  hands_over (Logf Sprintf stk h lvl message args) W lvl
    (default ("???", 0) (stk !! 1)).
Proof.
  intros Hen Hv.
  destruct (IsLevelEnabled_inv _ _ _ _ _ Hen) as (_ & r & m & Hg & Hw & Hd).
  destruct (LogCallf_accepted Sprintf ((logger_go, 128) :: stk) h 2 lvl message
              args W r m Hg Hw Hd Hv) as (lbl & H' & Hrun & _).
  cbn zeta in Hrun. eexists r, _, _. split; [exact Hrun|].
  split; [apply writes_accepted|]. cbn [Entry_Level Filename Line].
  split; [done|]. rewrite call_site_eq.
  change (((logger_go, 128) :: stk) !! 2) with (stk !! 1).
  symmetry. apply surjective_pairing.
Qed.

(** X2.  An Entry logged through [Tracef], [Debugf], [Infof], [Warningf],
    [Errorf] or [Criticalf] has the level of the method and the file and
    line of the place the method was called from ([???] and 0 when there is
    no such frame). *)
Theorem convenience_reports_caller stk h message args W :
  valid_labels W (labels h) →
  let site := default ("???", 0) (stk !! 0) in
  (IsLevelEnabled h TRACE W = Some (true, W) →
     hands_over (Tracef Sprintf stk h message args) W TRACE site)
  ∧ (IsLevelEnabled h DEBUG W = Some (true, W) →
     hands_over (Debugf Sprintf stk h message args) W DEBUG site)
  ∧ (IsLevelEnabled h INFO W = Some (true, W) →
     hands_over (Infof Sprintf stk h message args) W INFO site)
  ∧ (IsLevelEnabled h WARNING W = Some (true, W) →
     hands_over (Warningf Sprintf stk h message args) W WARNING site)
  ∧ (IsLevelEnabled h ERROR W = Some (true, W) →
     hands_over (Errorf Sprintf stk h message args) W ERROR site)
  ∧ (IsLevelEnabled h CRITICAL W = Some (true, W) →
     hands_over (Criticalf Sprintf stk h message args) W CRITICAL site).
Proof.
  intros Hv site.
  repeat split; intros Hen;
    unfold Tracef, Debugf, Infof, Warningf, Errorf, Criticalf;
    exact (Logf_entry _ h _ message args W Hen Hv).
Qed.

(** X3.  [Logf] ascends two frames: called directly, it reports the place
    its caller was called from, not the place of the call of [Logf]
    ([???] and 0 when the caller is the outermost frame). *)
Theorem Logf_reports_callers_caller stk h lvl message args W :
  IsLevelEnabled h lvl W = Some (true, W) →
  valid_labels W (labels h) →
  hands_over (Logf Sprintf stk h lvl message args) W lvl
    (default ("???", 0) (stk !! 1))
  ∧ (length stk ≤ 1 →
     hands_over (Logf Sprintf stk h lvl message args) W lvl ("???", 0)).
Proof.
  intros Hen Hv. pose proof (Logf_entry stk h lvl message args W Hen Hv) as H.
  split; [exact H|]. intros Hlen. unfold Frame in *.
  apply lookup_ge_None_2 in Hlen. by rewrite Hlen in H.
Qed.

(** X4.  A call of [LogCallf] that returns leaves the Registries and the
    clock as they were and changes no map object that existed: every map
    value keeps its label set, that of the handle included.  The label map
    of an Entry it hands over is a new object, not the map of the handle. *)
Theorem LogCallf_frame stk h calldepth lvl message args W W' :
  LogCallf Sprintf stk h calldepth lvl message args W = Some (tt, W') →
  contexts W' = contexts W
  ∧ clock W' = clock W
  ∧ (∀ l, l ∈ dom (heap W) → heap W' !! l = heap W !! l)
  ∧ (∀ x, valid_labels W x → valid_labels W' x ∧ label_set W' x = label_set W x)
  ∧ ∃ new, events W' = events W ++ new
      ∧ ∀ r e l, (r, e) ∈ writes new → Entry_Labels e = Some l →
          (l ∉ dom (heap W)) ∧ labels h ≠ Some l.
Proof.
  intros Hrun.
  destruct (LogCallf_inv _ _ _ _ _ _ _ _ Hrun) as (r & b & Hg & Hw & Hno & Hyes).
  assert (Hkeep : ∀ H' : gmap loc (gmap string string),
            (∀ l, l ∈ dom (heap W) → H' !! l = heap W !! l) →
            ∀ x, valid_labels W x →
              valid_labels (set_heap H' W) x
              ∧ label_set (set_heap H' W) x = label_set W x).
  { intros H' Hf [l|]; [|done]. intros Hl. cbn.
    rewrite (Hf l) by (by apply elem_of_dom). done. }
  destruct b.
  - destruct (Hyes eq_refl) as [Hv [m Hd]].
    destruct (LogCallf_accepted Sprintf stk h calldepth lvl message args W r m
                Hg Hw Hd Hv) as (lbl & H' & Hrun' & _ & _ & Hfresh & _ & Hframe).
    cbn zeta in Hrun'. rewrite Hrun' in Hrun. injection Hrun as <-.
    split; [by destruct (0 <? length args)|].
    split; [by destruct (0 <? length args)|].
    split; [done|]. split.
    { intros x Hx. destruct (Hkeep H' Hframe x Hx) as [Hx1 Hx2].
      destruct x as [l|]; [|done]. done. }
    eexists. split; [apply events_accepted|].
    intros r' e l. rewrite writes_app. unfold format_events.
    assert (writes (if 0 <? length args
                    then [EvSprintf (trim_newline message) args] else [])
            = @nil (modref * Entry)) as -> by (by destruct (0 <? length args)).
    cbn. intros Hin%list_elem_of_singleton. injection Hin as -> ->.
    cbn. intros ->. specialize (Hfresh l eq_refl). split; [done|].
    intros Heq. rewrite Heq in Hv. cbn in Hv. by apply elem_of_dom in Hv.
  - rewrite (Hno eq_refl). split; [done|]. split; [done|]. split; [done|].
    split; [done|]. exists []. split; [by rewrite app_nil_r|].
    intros r' e l Hin. by apply elem_of_nil in Hin.
Qed.

(** X5.  [IsLevelEnabled] tells what a log call at that level does: when
    it says yes the call hands over exactly one Entry, when it says no the
    call leaves the world as it was. *)
Theorem enabled_iff_handed_over stk h calldepth lvl message args W b :
  IsLevelEnabled h lvl W = Some (b, W) →
  valid_labels W (labels h) →
  ∃ W', LogCallf Sprintf stk h calldepth lvl message args W = Some (tt, W')
    ∧ (b = true → ∃ r e, writes (events W') = writes (events W) ++ [(r, e)]
                         ∧ Entry_Level e = lvl)
    ∧ (b = false → W' = W)
    ∧ (writes (events W') ≠ writes (events W) ↔ b = true).
Proof.
  intros Hen Hv.
  destruct (IsLevelEnabled_inv _ _ _ _ _ Hen) as (_ & r & m & Hg & Hw & Hd).
  destruct b.
  - destruct (LogCallf_accepted Sprintf stk h calldepth lvl message args W r m
                Hg Hw Hd Hv) as (lbl & H' & Hrun & _).
    cbn zeta in Hrun. eexists. split; [exact Hrun|].
    rewrite writes_accepted. split; [intros _; by eexists _, _|].
    split; [done|]. split; [done|]. intros _ Heq.
    apply (f_equal length) in Heq. rewrite length_app in Heq. cbn in Heq. lia.
  - exists W. split; [by eapply LogCallf_discarded|].
    split; [done|]. split; [done|]. split; [done|done].
Qed.

End Entries.


Lemma convenience_reports_caller_witness :
  valid_labels sample_world (labels testing_logger)
  ∧ IsLevelEnabled testing_logger ERROR sample_world = Some (true, sample_world)
  ∧ hands_over (Errorf goSprintf sample_stack testing_logger "failed: %s"
                  [VString "disk"]) sample_world ERROR ("logger_test.go", 43).
Proof.
  assert (Hv : valid_labels sample_world (labels testing_logger)) by (by eexists).
  assert (Hen : IsLevelEnabled testing_logger ERROR sample_world
                = Some (true, sample_world)) by (by vm_compute).
  split; [exact Hv|]. split; [exact Hen|].
  destruct (convenience_reports_caller goSprintf sample_stack testing_logger
              "failed: %s" [VString "disk"] sample_world Hv)
    as (_ & _ & _ & _ & Herr & _).
  exact (Herr Hen).
Defined.

Lemma Logf_reports_callers_caller_witness :
  IsLevelEnabled testing_logger INFO sample_world = Some (true, sample_world)
  ∧ valid_labels sample_world (labels testing_logger)
  ∧ hands_over (Logf goSprintf sample_stack testing_logger INFO "direct" [])
      sample_world INFO ("runner.go", 7).
Proof.
  destruct (sample_enabled testing_logger (or_introl eq_refl)) as [Hen Hv].
  split; [exact Hen|]. split; [exact Hv|].
  exact (proj1 (Logf_reports_callers_caller goSprintf sample_stack testing_logger
                  INFO "direct" [] sample_world Hen Hv)).
Defined.

Lemma LogCallf_frame_witness :
  ∃ W', LogCallf goSprintf sample_stack tagged_logger 1 INFO "x" [] sample_world
          = Some (tt, W')
    ∧ contexts W' = contexts sample_world
    ∧ label_set W' (labels tagged_logger)
      = label_set sample_world (labels tagged_logger)
    ∧ W' ≠ sample_world.
Proof.
  destruct (LogCallf goSprintf sample_stack tagged_logger 1 INFO "x" []
              sample_world) as [[[] W']|] eqn:Hrun;
    [|by vm_compute in Hrun].
  exists W'. split; [done|].
  destruct (LogCallf_frame goSprintf _ _ _ _ _ _ _ _ Hrun)
    as (Hc & _ & _ & Hkeep & _).
  split; [exact Hc|]. split.
  - apply Hkeep. by eexists.
  - intros ->. vm_compute in Hrun. discriminate.
Defined.

Lemma enabled_iff_handed_over_witness :
  IsLevelEnabled testing_logger DEBUG sample_world = Some (false, sample_world)
  ∧ valid_labels sample_world (labels testing_logger)
  ∧ LogCallf goSprintf sample_stack testing_logger 1 DEBUG "quiet" []
      sample_world = Some (tt, sample_world).
Proof.
  assert (Hv : valid_labels sample_world (labels testing_logger)) by (by eexists).
  assert (Hen : IsLevelEnabled testing_logger DEBUG sample_world
                = Some (false, sample_world)) by (by vm_compute).
  split; [exact Hen|]. split; [exact Hv|].
  destruct (enabled_iff_handed_over goSprintf sample_stack testing_logger 1 DEBUG
              "quiet" [] sample_world false Hen Hv) as (W' & Hrun & _ & Hno & _).
  rewrite (Hno eq_refl) in Hrun. exact Hrun.
Defined.

(** ** Labels and logging together *)

Section LabelsAndLogging.
Context {Arg : Type} (Sprintf : string → list Arg → string).
Implicit Types W : @World Arg.

Lemma deref_contexts W W2 r :
  contexts W2 = contexts W → fst <$> deref r W2 = fst <$> deref r W.
Proof.
  unfold deref, bind, gets, lift. intros ->.
  destruct (contexts W !! r.1) as [c|]; [|done]. by destruct (modules c !! r.2).
Qed.

Lemma effective_walk_contexts W W2 fuel r :
  contexts W2 = contexts W → effective_walk fuel W2 r = effective_walk fuel W r.
Proof.
  intros Hc. revert r. induction fuel as [|fuel IH]; intros r; [done|].
  cbn [effective_walk]. pose proof (deref_contexts W W2 r Hc) as Hd.
  destruct (deref r W2) as [[m2 ?]|], (deref r W) as [[m ?]|]; cbn in Hd;
    try done.
  injection Hd as ->. by rewrite IH.
Qed.

(** The answer of [willWrite] depends on the Registries only. *)
Lemma willWrite_contexts W W2 r lvl b :
  contexts W2 = contexts W →
  willWrite r lvl W = Some (b, W) → willWrite r lvl W2 = Some (b, W2).
Proof.
  intros Hc. unfold willWrite, bind, getEffectiveLogLevel, node_count, ret.
  rewrite (effective_walk_contexts W W2 _ r Hc), Hc.
  destruct (effective_walk _ W r); [|done]. by intros [= ->].
Qed.

Lemma getModule_contexts W W2 (i : option modref) (x y : Labels) r :
  contexts W2 = contexts W →
  getModule (Logger_ i x) W = Some (r, W) →
  getModule (Logger_ i y) W2 = Some (r, W2).
Proof.
  intros Hc. unfold getModule. cbn [impl]. destruct i as [r0|].
  - by intros [= ->].
  - unfold defaultContext_root, bind, gets, lift, ret. rewrite Hc.
    destruct (contexts W !! defaultContext); [|done]. by intros [= ->].
Qed.

(** X6.  The labels of a handle change nothing but the labels of its
    Entries.  Two handles on the same Node that differ in their labels get
    the same answers about levels and the same parents and children, and
    a log call on the one returns when the call on the other does, after the
    same events up to the label maps of the Entries, with the Registries and
    the clock left alike. *)
Theorem labels_only_label (i : option modref) (x y : Labels)
    stk calldepth lvl message args W :
  valid_labels W x →
  valid_labels W y →
  let hx := Logger_ i x in
  let hy := Logger_ i y in
  IsLevelEnabled hx lvl W = IsLevelEnabled hy lvl W
  ∧ EffectiveLogLevel hx W = EffectiveLogLevel hy W
  ∧ Parent hx W = Parent hy W
  ∧ (∀ n, Child hx n W = Child hy n W)
  ∧ match LogCallf Sprintf stk hx calldepth lvl message args W,
          LogCallf Sprintf stk hy calldepth lvl message args W with
    | Some (_, Wx), Some (_, Wy) =>
        without_labels <$> events Wx = without_labels <$> events Wy
        ∧ contexts Wx = contexts Wy
        ∧ clock Wx = clock Wy
    | None, None => True
    | _, _ => False
    end.
Proof.
  intros Hx Hy hx hy. do 4 (split; [done|]).
  assert (Hgm : getModule hy W = getModule hx W) by done.
  destruct (getModule hx W) as [[r W1]|] eqn:Hg.
  2:{ unfold LogCallf, bind. by rewrite Hg, Hgm. }
  pose proof (getModule_inv _ _ _ _ Hg) as ->.
  destruct (willWrite r lvl W) as [[b W1]|] eqn:Hw.
  2:{ unfold LogCallf. rewrite (bind_Some _ _ _ _ _ Hg), (bind_Some _ _ _ _ _ Hgm).
      unfold bind. by rewrite Hw. }
  destruct (willWrite_inv _ _ _ _ _ Hw) as (-> & eff & Heff & _).
  destruct b.
  - destruct (getEffectiveLogLevel_deref _ _ _ _ Heff) as [m Hd].
    destruct (LogCallf_accepted Sprintf stk hx calldepth lvl message args W r m
                Hg Hw Hd Hx) as (lx & Hx' & -> & _).
    destruct (LogCallf_accepted Sprintf stk hy calldepth lvl message args W r m
                Hgm Hw Hd Hy) as (ly & Hy' & -> & _).
    cbn. rewrite !fmap_app. cbn. split; [done|].
    by destruct (0 <? length args).
  - rewrite (LogCallf_discarded Sprintf stk hx calldepth lvl message args W r Hg Hw).
    by rewrite (LogCallf_discarded Sprintf stk hy calldepth lvl message args W r
                  Hgm Hw).
Qed.

(** X7.  Of two calls of [WithLabels] in a row the last one with a
    non-empty map decides the labels: the handle returned is on the Node
    of the receiver and carries the labels of the second map, or, that one
    being empty, those of the first; with both maps empty it is the
    receiver and nothing has changed. *)
Theorem WithLabels_last_wins W h m1 m2 :
  valid_labels W m1 →
  valid_labels W m2 →
  ∃ r W',
    (let* a := WithLabels h m1 in WithLabels a m2) W = Some (r, W')
    ∧ impl r = impl h
    ∧ (label_set W m2 ≠ ∅ → label_set W' (labels r) = label_set W m2)
    ∧ (label_set W m2 = ∅ → label_set W m1 ≠ ∅ →
         label_set W' (labels r) = label_set W m1)
    ∧ (label_set W m2 = ∅ → label_set W m1 = ∅ → r = h ∧ W' = W).
Proof.
  intros H1 H2.
  set (l := fresh (dom (heap W))).
  assert (Hl : heap W !! l = None) by apply fresh_heap.
  destruct (size (label_set W m1) =? 0) eqn:Hs1.
  - (* the first map is empty: the first call returns the receiver *)
    rewrite (bind_Some _ _ _ _ _ (eq_trans (WithLabels_eq W h m1 H1)
               ltac:(by rewrite Hs1))).
    rewrite (WithLabels_eq W h m2 H2).
    apply size_label_set_0 in Hs1.
    destruct (size (label_set W m2) =? 0) eqn:Hs2.
    + apply size_label_set_0 in Hs2. eexists _, _. split; [done|].
      split; [done|]. split; [done|]. split; [done|]. done.
    + eexists _, _. split; [done|]. split; [done|]. split.
      { intros _. cbn. by rewrite lookup_insert_eq. }
      split; [done|]. intros He%size_label_set_0. congruence.
  - rewrite (bind_Some _ _ _ _ _ (eq_trans (WithLabels_eq W h m1 H1)
               ltac:(by rewrite Hs1))).
    fold l.
    destruct (alloc_keeps W m2 l (label_set W m1) H2 Hl) as [H2' Hs2'].
    rewrite (WithLabels_eq _ _ m2 H2'), Hs2'.
    assert (Hne1 : label_set W m1 ≠ ∅).
    { intros He%size_label_set_0. congruence. }
    destruct (size (label_set W m2) =? 0) eqn:Hs2.
    + apply size_label_set_0 in Hs2. eexists _, _. split; [done|].
      split; [done|]. split; [done|]. split; [|done].
      intros _ _. cbn. by rewrite lookup_insert_eq.
    + eexists _, _. split; [done|]. split; [done|]. split.
      { intros _. cbn. by rewrite lookup_insert_eq. }
      split; [|done]. intros He%size_label_set_0. congruence.
Qed.

(** X8.  The labels given to [WithLabels] are on every Entry logged
    through the handle it returns: a log call on that handle is accepted
    when one on the receiver is, and its Entry, on the Node of the
    receiver, carries each label of the map with its value, over the tags
    of the Node under the reserved key. *)
Theorem labels_reach_entries stk h m calldepth lvl message args W tgs :
  valid_labels W m →
  label_set W m ≠ ∅ →
  IsLevelEnabled h lvl W = Some (true, W) →
  Tags h W = Some (tgs, W) →
  ∃ r e W',
    (let* a := WithLabels h m in
     LogCallf Sprintf stk a calldepth lvl message args) W = Some (tt, W')
    ∧ getModule h W = Some (r, W)
    ∧ writes (events W') = writes (events W) ++ [(r, e)]
    ∧ (∀ k v, label_set W m !! k = Some v →
         label_set W' (Entry_Labels e) !! k = Some v)
    ∧ label_set W' (Entry_Labels e)
      = label_set W m
        ∪ (if 0 <? length tgs then {[ LoggerTags := Join tgs "," ]} else ∅).
Proof.
  intros Hm Hne Hen Ht.
  destruct (IsLevelEnabled_inv _ _ _ _ _ Hen) as (_ & r & m0 & Hg & Hw & Hd).
  pose proof (Tags_inv _ _ _ _ _ _ Ht Hg Hd) as ->.
  set (l := fresh (dom (heap W))).
  set (W1 := set_heap (<[l := label_set W m]> (heap W)) W).
  assert (H1 : WithLabels h m W = Some (Logger_ (impl h) (Some l), W1)).
  { rewrite (WithLabels_eq W h m Hm).
    destruct (size (label_set W m) =? 0) eqn:Hs; [|done].
    by apply size_label_set_0 in Hs. }
  assert (Hg1 : getModule (Logger_ (impl h) (Some l)) W1 = Some (r, W1)).
  { destruct h as [i x]. by apply (getModule_contexts W W1 i x). }
  assert (Hw1 : willWrite r lvl W1 = Some (true, W1))
    by (by apply (willWrite_contexts W)).
  assert (Hd1 : deref r W1 = Some (m0, W1))
    by (by apply (deref_same_contexts W)).
  assert (Hv1 : valid_labels W1 (Some l)).
  { cbn. rewrite lookup_insert_eq. by eexists. }
  assert (Hs1 : label_set W1 (Some l) = label_set W m).
  { cbn. by rewrite lookup_insert_eq. }
  destruct (LogCallf_accepted Sprintf stk (Logger_ (impl h) (Some l)) calldepth
              lvl message args W1 r m0 Hg1 Hw1 Hd1 Hv1)
    as (lbl & H' & Hrun & _ & _ & _ & Hset & _).
  cbn zeta in Hrun. cbn [labels] in Hset. rewrite Hs1 in Hset.
  eexists r, _, _. rewrite (bind_Some _ _ _ _ _ H1).
  split; [exact Hrun|]. split; [exact Hg|].
  split; [apply (writes_accepted W1)|]. cbn [Entry_Labels].
  assert (Hfin : ∀ W2 : @World Arg, heap W2 = H' →
            label_set W2 lbl = label_set W m ∪ tag_labels m0).
  { intros W2 HW2. rewrite <- Hset. destruct lbl; [|done]. cbn. by rewrite HW2. }
  rewrite (Hfin _) by (by destruct (0 <? length args)).
  split; [|done]. intros k v Hk. by apply lookup_union_Some_l.
Qed.

End LabelsAndLogging.

Lemma labels_only_label_witness :
  valid_labels sample_world (Some 1%positive)
  ∧ valid_labels sample_world (Some 2%positive)
  ∧ ∃ Wx Wy,
      Logf goSprintf sample_stack (Logger_ (Some (1, "testing")) (Some 1%positive))
        INFO "m" [] sample_world = Some (tt, Wx)
      ∧ Logf goSprintf sample_stack (Logger_ (Some (1, "testing")) (Some 2%positive))
          INFO "m" [] sample_world = Some (tt, Wy)
      ∧ without_labels <$> events Wx = without_labels <$> events Wy.
Proof.
  assert (Hx : valid_labels sample_world (Some 1%positive)) by (by eexists).
  assert (Hy : valid_labels sample_world (Some 2%positive)) by (by eexists).
  split; [exact Hx|]. split; [exact Hy|].
  destruct (labels_only_label goSprintf (Some (1, "testing")) _ _
              ((logger_go, 128) :: sample_stack) 2 INFO "m" [] sample_world Hx Hy)
    as (_ & _ & _ & _ & Hlog).
  unfold Logf.
  destruct (LogCallf goSprintf ((logger_go, 128) :: sample_stack)
              (Logger_ (Some (1, "testing")) (Some 1%positive)) 2 INFO "m" []
              sample_world) as [[[] Wx]|] eqn:Ex; [|vm_compute in Ex; discriminate Ex].
  destruct (LogCallf goSprintf ((logger_go, 128) :: sample_stack)
              (Logger_ (Some (1, "testing")) (Some 2%positive)) 2 INFO "m" []
              sample_world) as [[[] Wy]|] eqn:Ey; [|vm_compute in Ey; discriminate Ey].
  exists Wx, Wy. split; [reflexivity|]. split; [reflexivity|]. exact (proj1 Hlog).
Defined.

Lemma WithLabels_last_wins_witness :
  valid_labels sample_world hello_labels
  ∧ valid_labels sample_world empty_labels
  ∧ ∃ r W',
      (let* a := WithLabels sample_root hello_labels in
       WithLabels a empty_labels) sample_world = Some (r, W')
      ∧ label_set W' (labels r) !! "hello" = Some "world".
Proof.
  assert (H1 : valid_labels sample_world hello_labels) by (by eexists).
  assert (H2 : valid_labels sample_world empty_labels) by (by eexists).
  split; [exact H1|]. split; [exact H2|].
  destruct (WithLabels_last_wins sample_world sample_root hello_labels
              empty_labels H1 H2) as (r & W' & Hrun & _ & _ & Hfirst & _).
  exists r, W'. split; [exact Hrun|]. rewrite Hfirst.
  - by vm_compute.
  - by vm_compute.
  - intros H. apply (f_equal (λ m : gmap string string, m !! "hello")) in H.
    vm_compute in H. discriminate.
Defined.

Lemma labels_reach_entries_witness :
  valid_labels sample_world hello_labels
  ∧ label_set sample_world hello_labels !! "hello" = Some "world"
  ∧ IsLevelEnabled sample_root INFO sample_world = Some (true, sample_world)
  ∧ Tags sample_root sample_world = Some ([], sample_world)
  ∧ ∃ r e W',
      (let* a := WithLabels sample_root hello_labels in
       LogCallf goSprintf sample_stack a 1 INFO "hi" []) sample_world
        = Some (tt, W')
      ∧ writes (events W') = [(r, e)]
      ∧ label_set W' (Entry_Labels e) !! "hello" = Some "world".
Proof.
  assert (Hm : valid_labels sample_world hello_labels) by (by eexists).
  assert (Hk : label_set sample_world hello_labels !! "hello" = Some "world")
    by (by vm_compute).
  assert (Hne : label_set sample_world hello_labels ≠ ∅).
  { intros H. rewrite H in Hk. done. }
  assert (Hen : IsLevelEnabled sample_root INFO sample_world
                = Some (true, sample_world)) by (by vm_compute).
  assert (Ht : Tags sample_root sample_world = Some ([], sample_world))
    by (by vm_compute).
  split; [exact Hm|]. split; [exact Hk|]. split; [exact Hen|]. split; [exact Ht|].
  destruct (labels_reach_entries goSprintf sample_stack sample_root hello_labels
              1 INFO "hi" [] sample_world [] Hm Hne Hen Ht)
    as (r & e & W' & Hrun & _ & Hw & Hlab & _).
  exists r, e, W'. split; [exact Hrun|]. split; [exact Hw|]. exact (Hlab _ _ Hk).
Defined.

(** ** Levels *)

Section Levels.
Context {Arg : Type}.
Implicit Types W : @World Arg.

Lemma effective_walk_specified W fuel r l :
  effective_walk fuel W r = Some l → l ≠ UNSPECIFIED.
Proof.
  revert r. induction fuel as [|fuel IH]; intros r; [done|].
  cbn [effective_walk].
  destruct (deref r W) as [[m W1]|]; [|done].
  case_decide; [apply IH|]. by intros [= <-].
Qed.

(** X9.  The effective level of a logger is its own level when that is
    specified; when it is not, it is the effective level of its parent.
    It is never UNSPECIFIED, and asking for it changes nothing. *)
Theorem EffectiveLogLevel_inherits W h r m :
  getModule h W = Some (r, W) →
  deref r W = Some (m, W) →
  (level m ≠ UNSPECIFIED → EffectiveLogLevel h W = Some (level m, W))
  ∧ (level m = UNSPECIFIED → ∀ l, EffectiveLogLevel h W = Some (l, W) →
       ∃ p, Parent h W = Some (p, W) ∧ EffectiveLogLevel p W = Some (l, W))
  ∧ (∀ l W', EffectiveLogLevel h W = Some (l, W') → l ≠ UNSPECIFIED ∧ W' = W).
Proof.
  intros Hg Hd. unfold EffectiveLogLevel. rewrite !(bind_Some _ _ _ _ _ Hg).
  split; [|split].
  - intros Hl. by apply getEffectiveLogLevel_own.
  - intros Hl l He. exists (Logger_ (Some (parent m)) None). split.
    { unfold Parent. by rewrite (bind_Some _ _ _ _ _ Hg), (bind_Some _ _ _ _ _ Hd). }
    unfold bind, getModule, ret. cbn [impl].
    unfold getEffectiveLogLevel in *. cbn [effective_walk] in He.
    rewrite Hd, decide_True in He by done.
    destruct (effective_walk (node_count W) W (parent m)) as [l'|] eqn:Hw;
      [|done].
    injection He as ->.
    pose proof (effective_walk_more W _ 1 _ _ Hw) as Hw'.
    rewrite Nat.add_1_r in Hw'. by rewrite Hw'.
  - intros l W' He. unfold getEffectiveLogLevel in He.
    destruct (effective_walk _ W r) as [l'|] eqn:Hw; [|done].
    injection He as <- <-. split; [|done]. by eapply effective_walk_specified.
Qed.

(** X10.  [IsLevelEnabled] compares the level asked about with the
    effective level: a level is enabled exactly when it is at or above it.
    So a logger enabled at a level is enabled at every level above, none
    is enabled at UNSPECIFIED, and each of the predicates for trace, debug,
    info and warning implies the next one, up to error. *)
Theorem IsLevelEnabled_threshold W h eff :
  EffectiveLogLevel h W = Some (eff, W) →
  (∀ lvl, IsLevelEnabled h lvl W = Some (level_num eff <=? level_num lvl, W))
  ∧ (∀ lo hi, level_num lo ≤ level_num hi →
       IsLevelEnabled h lo W = Some (true, W) →
       IsLevelEnabled h hi W = Some (true, W))
  ∧ IsLevelEnabled h UNSPECIFIED W = Some (false, W)
  ∧ (IsTraceEnabled h W = Some (true, W) → IsDebugEnabled h W = Some (true, W))
  ∧ (IsDebugEnabled h W = Some (true, W) → IsInfoEnabled h W = Some (true, W))
  ∧ (IsInfoEnabled h W = Some (true, W) → IsWarningEnabled h W = Some (true, W))
  ∧ (IsWarningEnabled h W = Some (true, W) → IsErrorEnabled h W = Some (true, W)).
Proof.
  intros He.
  assert (Hall : ∀ lvl,
            IsLevelEnabled h lvl W = Some (level_num eff <=? level_num lvl, W)).
  { intros lvl. revert He. unfold EffectiveLogLevel, IsLevelEnabled, bind.
    destruct (getModule h W) as [[r W1]|] eqn:Hg; [|done].
    pose proof (getModule_inv _ _ _ _ Hg) as ->. intros He.
    unfold willWrite, bind. by rewrite He. }
  assert (Hmono : ∀ lo hi, level_num lo ≤ level_num hi →
            IsLevelEnabled h lo W = Some (true, W) →
            IsLevelEnabled h hi W = Some (true, W)).
  { intros lo hi Hle. rewrite !Hall. intros [= Hlo]. do 2 f_equal.
    apply Nat.leb_le. apply Nat.leb_le in Hlo. lia. }
  split; [exact Hall|]. split; [exact Hmono|]. split.
  { rewrite Hall. do 2 f_equal. apply Nat.leb_gt.
    assert (eff ≠ UNSPECIFIED).
    { revert He. unfold EffectiveLogLevel, bind.
      destruct (getModule h W) as [[r W1]|]; [|done].
      unfold getEffectiveLogLevel.
      destruct (effective_walk _ W1 r) as [l|] eqn:Hw; [|done].
      intros [= <- _]. by eapply effective_walk_specified. }
    destruct eff; cbn; try lia. done. }
  unfold IsTraceEnabled, IsDebugEnabled, IsInfoEnabled, IsWarningEnabled,
    IsErrorEnabled.
  repeat split; apply Hmono; cbn; lia.
Qed.

(** The world after [SetLogLevel]. *)
Lemma SetLogLevel_eq W h lvl r m c :
  getModule h W = Some (r, W) →
  deref r W = Some (m, W) →
  contexts W !! r.1 = Some c →
  let lvl' := if decide (name m = "" ∧ lvl = UNSPECIFIED) then WARNING else lvl in
  let m' := Module_ (name m) lvl' (parent m) (context m) (tags m) in
  let W' := set_contexts
              (<[r.1 := Context_ (root c) (<[r.2 := m']> (modules c))]> (contexts W))
              W in
  SetLogLevel h lvl W = Some (tt, W')
  ∧ getModule h W' = Some (r, W')
  ∧ deref r W' = Some (m', W')
  ∧ (∀ r' x, r' ≠ r → deref r' W = Some (x, W) → deref r' W' = Some (x, W')).
Proof.
  intros Hg Hd Hc lvl' m' W'. split; [|split; [|split]].
  - unfold SetLogLevel, setLevel. rewrite (bind_Some _ _ _ _ _ Hg).
    rewrite (bind_Some _ _ _ _ _ Hd). unfold store_module, bind, gets, lift, modify.
    by rewrite Hc.
  - revert Hg. unfold getModule. destruct (impl h); [by intros [= ->]|].
    unfold defaultContext_root, bind, gets, lift, ret. cbn [contexts W' set_contexts].
    destruct (contexts W !! defaultContext) as [c0|] eqn:Hc0; [|done].
    intros [= <-]. rewrite lookup_insert. case_decide as Heq; [|by rewrite Hc0].
    cbn. rewrite <- Heq in Hc0. by simplify_eq.
  - unfold deref, bind, gets, lift. cbn [contexts W' set_contexts].
    rewrite lookup_insert_eq. cbn. by rewrite lookup_insert_eq.
  - intros [c' k'] x Hne. unfold deref, bind, gets, lift.
    cbn [contexts W' set_contexts fst snd].
    destruct r as [c0 k0]. cbn [fst snd] in *.
    rewrite lookup_insert. case_decide as Heq.
    + subst c'. rewrite Hc. cbn. rewrite lookup_insert_ne by congruence.
      destruct (modules c !! k'); [|done]. by intros [= ->].
    + destruct (contexts W !! c') as [cx|]; [|done].
      destruct (modules cx !! k'); [|done]. by intros [= ->].
Qed.

(** X11.  [SetLogLevel] followed by [LogLevel] gives back the level that
    was set, except that the root logger cannot be set to UNSPECIFIED: its
    level is then still a specified one.  Setting the level changes only
    the level of that Node: its tags and its parent, the other Nodes, the
    maps and the events stay as they were. *)
Theorem SetLogLevel_then_LogLevel W h lvl r m :
  getModule h W = Some (r, W) →
  deref r W = Some (m, W) →
  ∃ W', SetLogLevel h lvl W = Some (tt, W')
    ∧ (¬ (name m = "" ∧ lvl = UNSPECIFIED) → LogLevel h W' = Some (lvl, W'))
    ∧ (name m = "" → ∃ l, LogLevel h W' = Some (l, W') ∧ l ≠ UNSPECIFIED
                          ∧ (lvl ≠ UNSPECIFIED → l = lvl))
    ∧ Tags h W' = Some (tags m, W')
    ∧ Parent h W' = Some (Logger_ (Some (parent m)) None, W')
    ∧ (∀ r' x, r' ≠ r → deref r' W = Some (x, W) → deref r' W' = Some (x, W'))
    ∧ heap W' = heap W ∧ events W' = events W ∧ clock W' = clock W.
Proof.
  intros Hg Hd. destruct (deref_lookup W r m Hd) as (c & Hc & _).
  destruct (SetLogLevel_eq W h lvl r m c Hg Hd Hc) as (Hset & Hg' & Hd' & Hoth).
  eexists. split; [exact Hset|].
  unfold LogLevel, Tags, Parent.
  rewrite !(bind_Some _ _ _ _ _ Hg'), !(bind_Some _ _ _ _ _ Hd'). unfold ret.
  cbn [level tags parent].
  split. { intros Hn. by rewrite decide_False. }
  split.
  { intros Hroot. eexists. split; [done|]. case_decide as Hdec.
    - split; [done|]. intros Hl. by destruct Hdec.
    - split; [|done]. intros ->. by apply Hdec. }
  split; [done|]. split; [done|]. split; [exact Hoth|]. done.
Qed.

(** X12.  Once a specified level has been set on a logger, that level is
    its effective level, whatever its ancestors have: the logger is
    enabled exactly at the levels at or above it. *)
Theorem SetLogLevel_then_enabled W h lvl r m :
  getModule h W = Some (r, W) →
  deref r W = Some (m, W) →
  lvl ≠ UNSPECIFIED →
  ∃ W', SetLogLevel h lvl W = Some (tt, W')
    ∧ EffectiveLogLevel h W' = Some (lvl, W')
    ∧ ∀ l, IsLevelEnabled h l W' = Some (level_num lvl <=? level_num l, W').
Proof.
  intros Hg Hd Hl. destruct (deref_lookup W r m Hd) as (c & Hc & _).
  destruct (SetLogLevel_eq W h lvl r m c Hg Hd Hc) as (Hset & Hg' & Hd' & _).
  match type of Hset with _ = Some (_, ?X) => set (W' := X) in * end.
  exists W'. split; [exact Hset|].
  rewrite decide_False in Hd' by tauto.
  pose proof (getEffectiveLogLevel_own _ _ _ Hd' Hl) as He. cbn [level] in He.
  split.
  - unfold EffectiveLogLevel. by rewrite (bind_Some _ _ _ _ _ Hg').
  - intros l. unfold IsLevelEnabled, willWrite.
    by rewrite (bind_Some _ _ _ _ _ Hg'), (bind_Some _ _ _ _ _ He).
Qed.

End Levels.

Lemma EffectiveLogLevel_inherits_witness :
  getModule testing_logger sample_world = Some ((1, "testing"), sample_world)
  ∧ deref (1, "testing") sample_world
    = Some (Module_ "testing" UNSPECIFIED (1, "") 1 [], sample_world)
  ∧ EffectiveLogLevel testing_logger sample_world = Some (INFO, sample_world)
  ∧ ∃ p, Parent testing_logger sample_world = Some (p, sample_world)
         ∧ EffectiveLogLevel p sample_world = Some (INFO, sample_world).
Proof.
  assert (Hg : getModule testing_logger sample_world
               = Some ((1, "testing"), sample_world)) by reflexivity.
  assert (Hd : deref (1, "testing") sample_world
               = Some (Module_ "testing" UNSPECIFIED (1, "") 1 [], sample_world))
    by (vm_compute; reflexivity).
  assert (He : EffectiveLogLevel testing_logger sample_world
               = Some (INFO, sample_world)) by (vm_compute; reflexivity).
  split; [exact Hg|]. split; [exact Hd|]. split; [exact He|].
  exact (proj1 (proj2 (EffectiveLogLevel_inherits sample_world testing_logger
                         _ _ Hg Hd)) eq_refl INFO He).
Defined.

Lemma IsLevelEnabled_threshold_witness :
  EffectiveLogLevel testing_logger sample_world = Some (INFO, sample_world)
  ∧ IsLevelEnabled testing_logger WARNING sample_world = Some (true, sample_world)
  ∧ IsLevelEnabled testing_logger DEBUG sample_world = Some (false, sample_world).
Proof.
  assert (He : EffectiveLogLevel testing_logger sample_world
               = Some (INFO, sample_world)) by (vm_compute; reflexivity).
  split; [exact He|].
  pose proof (proj1 (IsLevelEnabled_threshold sample_world testing_logger INFO He))
    as Hall.
  split; [exact (Hall WARNING)|exact (Hall DEBUG)].
Defined.

Lemma SetLogLevel_then_LogLevel_witness :
  getModule sample_root sample_world = Some ((1, ""), sample_world)
  ∧ deref (1, "") sample_world = Some (Module_ "" INFO (1, "") 1 [], sample_world)
  ∧ ∃ W' l, SetLogLevel sample_root UNSPECIFIED sample_world = Some (tt, W')
            ∧ LogLevel sample_root W' = Some (l, W')
            ∧ l ≠ UNSPECIFIED.
Proof.
  assert (Hg : getModule sample_root sample_world
               = Some ((1, ""), sample_world)) by reflexivity.
  assert (Hd : deref (1, "") sample_world
               = Some (Module_ "" INFO (1, "") 1 [], sample_world))
    by (vm_compute; reflexivity).
  split; [exact Hg|]. split; [exact Hd|].
  destruct (SetLogLevel_then_LogLevel sample_world sample_root UNSPECIFIED _ _
              Hg Hd) as (W' & Hset & _ & Hroot & _).
  destruct (Hroot eq_refl) as (l & Hl & Hne & _).
  exists W', l. split; [exact Hset|]. split; [exact Hl|exact Hne].
Defined.

Lemma SetLogLevel_then_enabled_witness :
  getModule testing_logger sample_world = Some ((1, "testing"), sample_world)
  ∧ deref (1, "testing") sample_world
    = Some (Module_ "testing" UNSPECIFIED (1, "") 1 [], sample_world)
  ∧ ERROR ≠ UNSPECIFIED
  ∧ ∃ W', SetLogLevel testing_logger ERROR sample_world = Some (tt, W')
          ∧ EffectiveLogLevel testing_logger W' = Some (ERROR, W')
          ∧ IsLevelEnabled testing_logger WARNING W' = Some (false, W')
          ∧ IsLevelEnabled testing_logger CRITICAL W' = Some (true, W').
Proof.
  assert (Hg : getModule testing_logger sample_world
               = Some ((1, "testing"), sample_world)) by reflexivity.
  assert (Hd : deref (1, "testing") sample_world
               = Some (Module_ "testing" UNSPECIFIED (1, "") 1 [], sample_world))
    by (vm_compute; reflexivity).
  assert (Hl : ERROR ≠ UNSPECIFIED) by discriminate.
  split; [exact Hg|]. split; [exact Hd|]. split; [exact Hl|].
  destruct (SetLogLevel_then_enabled sample_world testing_logger ERROR _ _
              Hg Hd Hl) as (W' & Hset & He & Hen).
  exists W'. split; [exact Hset|]. split; [exact He|].
  split; [exact (Hen WARNING)|exact (Hen CRITICAL)].
Defined.

(** ** The newline at the end of a message *)

(** X13.  The trimming of [LogCallf] removes at most one byte, and only a
    newline at the very end: the message is either left as it is, which
    happens exactly when it does not end in a newline, or it is the result
    followed by one newline.  The empty message stays empty. *)
Theorem trim_newline_cases (s : string) :
  (trim_newline s = s ∨ s = trim_newline s +:+ String newline "")
  ∧ (trim_newline s = s ↔ ∀ s', s ≠ s' +:+ String newline "")
  ∧ trim_newline "" = ""
  ∧ String.length s - 1 ≤ String.length (trim_newline s) ≤ String.length s.
Proof.
  assert (Hcase : (∀ s', s ≠ s' +:+ String newline "")
                  ∨ ∃ s', s = s' +:+ String newline "").
  { destruct (0 <? String.length s) eqn:Hlen.
    - destruct (decide (String.get (String.length s - 1) s = Some newline))
        as [Hget|Hget].
      + right. eexists. apply get_last_newline; [by apply Nat.ltb_lt|done].
      + left. intros s' ->. apply Hget. rewrite length_app_newline.
        replace (S (String.length s') - 1) with (String.length s') by lia.
        apply get_app_newline.
    - left. intros s' ->. rewrite length_app_newline in Hlen. done. }
  destruct Hcase as [Hno|[s' ->]].
  - rewrite (trim_newline_other s Hno). split; [by left|]. split; [done|].
    split; [done|]. lia.
  - rewrite trim_newline_ends. split; [by right|]. split.
    + split.
      * intros Heq. apply (f_equal String.length) in Heq.
        rewrite length_app_newline in Heq. lia.
      * intros Hno. by destruct (Hno s').
    + split; [done|]. rewrite length_app_newline. lia.
Qed.

(** ** Children and the root *)

Section Hierarchy.
Context {Arg : Type}.
Implicit Types W : @World Arg.
Implicit Types ms : gmap string module.

Lemma length_app_string (a b : string) :
  String.length (a +:+ b) = String.length a + String.length b.
Proof. induction a as [|c a IH]; [done|]. rewrite app_cons. cbn. by rewrite IH. Qed.

(** What [GetLogger] returns and leaves behind. *)
Lemma GetLogger_tags_eq W c ctx n tgs :
  contexts W !! c = Some ctx →
  GetLogger c n tgs W =
    Some (Logger_ (Some (c, ToLower n)) None,
          set_contexts
            (<[c := Context_ (root ctx)
                      (alter (add_tags tgs) (ToLower n)
                         (foldl (ensure c) (modules ctx) (prefixes (ToLower n))))]>
               (contexts W)) W).
Proof.
  intros Hc. unfold GetLogger, bind, gets, lift, modify, ret. by rewrite Hc.
Qed.

(** A call of [Child] or [ChildWithTags] that returns. *)
Lemma ChildWithTags_inv W h n tgs l W' :
  ChildWithTags h n tgs W = Some (l, W') →
  ∃ r m ctx,
    getModule h W = Some (r, W)
    ∧ deref r W = Some (m, W)
    ∧ contexts W !! context m = Some ctx
    ∧ l = Logger_ (Some (context m, ToLower (child_path m n))) None
    ∧ W' = set_contexts
             (<[context m :=
                  Context_ (root ctx)
                    (alter (add_tags tgs) (ToLower (child_path m n))
                       (foldl (ensure (context m)) (modules ctx)
                          (prefixes (ToLower (child_path m n)))))]>
                (contexts W)) W.
Proof.
  unfold ChildWithTags, bind at 1.
  destruct (getModule h W) as [[r W1]|] eqn:Hg; [|done].
  pose proof (getModule_inv _ _ _ _ Hg) as ->. unfold bind at 1.
  destruct (deref r W) as [[m W1]|] eqn:Hd; [|done].
  pose proof (deref_inv _ _ _ _ Hd) as ->. intros Hget.
  destruct (contexts W !! context m) as [ctx|] eqn:Hc.
  - rewrite (GetLogger_tags_eq W _ ctx _ _ Hc) in Hget. injection Hget as <- <-.
    by exists r, m, ctx.
  - unfold GetLogger, bind, gets, lift in Hget. by rewrite Hc in Hget.
Qed.

Lemma Child_ChildWithTags h n : Child (Arg:=Arg) h n = ChildWithTags h n [].
Proof. done. Qed.

(** Nodes that exist before a find-or-create exist after it, unchanged
    but for the tags of the Node that was asked for. *)
Lemma alter_ensure_lookup c ms l tgs k0 k x :
  ms !! k = Some x →
  alter (add_tags tgs) k0 (foldl (ensure c) ms l) !! k
  = Some (if decide (k0 = k) then add_tags tgs x else x).
Proof.
  intros Hk. rewrite lookup_alter. case_decide as Hdec.
  - subst k0. by rewrite (foldl_ensure_keeps c l ms k x Hk).
  - by apply foldl_ensure_keeps.
Qed.

Lemma node_count_insert W c ctx ms' :
  contexts W !! c = Some ctx →
  node_count (set_contexts (<[c := Context_ (root ctx) ms']> (contexts W)) W)
    + size (modules ctx)
  = node_count W + size ms'.
Proof.
  intros Hc. unfold node_count. cbn [contexts set_contexts].
  rewrite <- insert_delete_eq.
  rewrite map_fold_insert_L; [|intros; lia|apply lookup_delete_eq].
  rewrite (map_fold_delete_L _ _ c ctx (contexts W)); [|intros; lia|done].
  cbn. lia.
Qed.

Lemma foldl_ensure_size c l ms : size ms ≤ size (foldl (ensure c) ms l).
Proof.
  apply map_subseteq_size, map_subseteq_spec. intros k x.
  apply foldl_ensure_keeps.
Qed.

Lemma alter_size {A} (f : A → A) (k : string) (m : gmap string A) :
  size (alter f k m) = size m.
Proof. by rewrite <- !(size_dom (D:=gset string)), dom_alter_L. Qed.

(** The world after a find-or-create in the Registry [c]. *)
Lemma GetLogger_world W c ctx k0 l tgs :
  contexts W !! c = Some ctx →
  let W' := set_contexts
              (<[c := Context_ (root ctx)
                        (alter (add_tags tgs) k0
                           (foldl (ensure c) (modules ctx) l))]> (contexts W)) W in
  (∀ r0 x, deref r0 W = Some (x, W) →
     deref r0 W' = Some (if decide (r0 = (c, k0)) then add_tags tgs x else x, W'))
  ∧ (∀ h0 r0, getModule h0 W = Some (r0, W) → getModule h0 W' = Some (r0, W'))
  ∧ node_count W ≤ node_count W'.
Proof.
  intros Hc W'. split; [|split].
  - intros [c0 k] x Hd. destruct (deref_lookup W _ _ Hd) as (ctx0 & Hc0 & Hk).
    cbn [fst snd] in *. unfold deref, bind, gets, lift.
    cbn [contexts W' set_contexts fst snd]. rewrite lookup_insert.
    case_decide as Hcc.
    + subst c0. rewrite Hc in Hc0. injection Hc0 as <-. cbn.
      rewrite (alter_ensure_lookup c _ l tgs k0 k x Hk).
      do 2 f_equal. repeat case_decide; congruence.
    + rewrite Hc0. cbn. rewrite Hk. rewrite decide_False by congruence. done.
  - intros h0 r0. unfold getModule. destruct (impl h0); [by intros [= ->]|].
    unfold defaultContext_root, bind, gets, lift, ret.
    cbn [contexts W' set_contexts].
    destruct (contexts W !! defaultContext) as [c0|] eqn:Hc0; [|done].
    intros [= <-]. rewrite lookup_insert. case_decide as Heq; [|by rewrite Hc0].
    cbn. rewrite <- Heq in Hc0. by simplify_eq.
  - pose proof (node_count_insert W c ctx
                  (alter (add_tags tgs) k0 (foldl (ensure c) (modules ctx) l)) Hc)
      as Hn. fold W' in Hn. rewrite alter_size in Hn.
    pose proof (foldl_ensure_size c l (modules ctx)). lia.
Qed.

(** A world with the same Nodes and more keeps the effective levels. *)
Lemma effective_walk_extends W W' fuel r l :
  (∀ r0 x, deref r0 W = Some (x, W) → deref r0 W' = Some (x, W')) →
  effective_walk fuel W r = Some l → effective_walk fuel W' r = Some l.
Proof.
  intros Hext. revert r. induction fuel as [|fuel IH]; intros r; [done|].
  cbn [effective_walk]. destruct (deref r W) as [[m W1]|] eqn:Hd; [|done].
  pose proof (deref_inv _ _ _ _ Hd) as ->. rewrite (Hext _ _ Hd).
  case_decide; [apply IH|done].
Qed.

Lemma getEffectiveLogLevel_extends W W' r l :
  (∀ r0 x, deref r0 W = Some (x, W) → deref r0 W' = Some (x, W')) →
  node_count W ≤ node_count W' →
  getEffectiveLogLevel r W = Some (l, W) → getEffectiveLogLevel r W' = Some (l, W').
Proof.
  intros Hext Hn. unfold getEffectiveLogLevel.
  destruct (effective_walk (S (node_count W)) W r) as [l'|] eqn:Hw; [|done].
  intros [= ->].
  apply (effective_walk_extends W W' _ _ _ Hext) in Hw.
  apply (effective_walk_more W' _ (node_count W' - node_count W)) in Hw.
  replace (S (node_count W) + (node_count W' - node_count W))
    with (S (node_count W')) in Hw by lia.
  by rewrite Hw.
Qed.

(** X14.  [Child] creates nothing but Nodes: a call that returns leaves
    the maps, the events and the clock as they were, keeps every Node that
    existed as it was, and so keeps the level, the effective level and the
    enabled levels of every logger. *)
Theorem Child_keeps_existing W h n l W' :
  Child h n W = Some (l, W') →
  heap W' = heap W ∧ events W' = events W ∧ clock W' = clock W
  ∧ labels l = None
  ∧ (∀ r0 x, deref r0 W = Some (x, W) → deref r0 W' = Some (x, W'))
  ∧ (∀ h0 lv, LogLevel h0 W = Some (lv, W) → LogLevel h0 W' = Some (lv, W'))
  ∧ (∀ h0 lv, EffectiveLogLevel h0 W = Some (lv, W) →
       EffectiveLogLevel h0 W' = Some (lv, W'))
  ∧ (∀ h0 lv b, IsLevelEnabled h0 lv W = Some (b, W) →
       IsLevelEnabled h0 lv W' = Some (b, W')).
Proof.
  rewrite Child_ChildWithTags. intros Hrun.
  destruct (ChildWithTags_inv _ _ _ _ _ _ Hrun)
    as (r & m & ctx & Hg & Hd & Hc & -> & ->).
  destruct (GetLogger_world W (context m) ctx (ToLower (child_path m n))
              (prefixes (ToLower (child_path m n))) [] Hc)
    as (Hderef & Hget & Hcount).
  set (W' := set_contexts _ W) in *.
  assert (Hext : ∀ r0 x, deref r0 W = Some (x, W) → deref r0 W' = Some (x, W')).
  { intros r0 x Hx. rewrite (Hderef r0 x Hx). rewrite add_tags_nil.
    by case_decide. }
  assert (Heff : ∀ h0 lv, EffectiveLogLevel h0 W = Some (lv, W) →
            EffectiveLogLevel h0 W' = Some (lv, W')).
  { intros h0 lv. unfold EffectiveLogLevel, bind at 1.
    destruct (getModule h0 W) as [[r0 W1]|] eqn:Hg0; [|done].
    pose proof (getModule_inv _ _ _ _ Hg0) as ->. intros He.
    rewrite (bind_Some _ _ _ _ _ (Hget _ _ Hg0)).
    by apply (getEffectiveLogLevel_extends W). }
  do 4 (split; [done|]). split; [exact Hext|]. split; [|split; [exact Heff|]].
  - intros h0 lv. unfold LogLevel, bind at 1.
    destruct (getModule h0 W) as [[r0 W1]|] eqn:Hg0; [|done].
    pose proof (getModule_inv _ _ _ _ Hg0) as ->. unfold bind at 1.
    destruct (deref r0 W) as [[m0 W1]|] eqn:Hd0; [|done].
    pose proof (deref_inv _ _ _ _ Hd0) as ->. intros [= <-].
    by rewrite (bind_Some _ _ _ _ _ (Hget _ _ Hg0)),
      (bind_Some _ _ _ _ _ (Hext _ _ Hd0)).
  - intros h0 lv b Hen.
    destruct (IsLevelEnabled_inv _ _ _ _ _ Hen) as (_ & r0 & m0 & Hg0 & Hw0 & _).
    destruct (willWrite_inv _ _ _ _ _ Hw0) as (_ & eff & Heff0 & ->).
    unfold IsLevelEnabled, willWrite.
    rewrite (bind_Some _ _ _ _ _ (Hget _ _ Hg0)).
    by rewrite (bind_Some _ _ _ _ _
                  (getEffectiveLogLevel_extends W W' _ _ Hext Hcount Heff0)).
Qed.


Lemma set_contexts_id W : set_contexts (contexts W) W = W.
Proof. by destruct W. Qed.

(** X16.  [Root] returns the handle, without labels, on the root of the
    Registry the Node of the receiver belongs to, and changes nothing;
    applied to that handle it returns it again.  The root is named
    [<root>], and its children are the loggers [GetLogger] of that Registry
    gives for their names. *)
Theorem Root_is_registry_root W h r m m0 :
  registry_ok W →
  getModule h W = Some (r, W) →
  deref r W = Some (m, W) →
  deref (r.1, "") W = Some (m0, W) →
  let root_handle := Logger_ (Some (r.1, "")) None in
  Root h W = Some (root_handle, W)
  ∧ Root root_handle W = Some (root_handle, W)
  ∧ Name root_handle W = Some ("<root>", W)
  ∧ (∀ n, Child root_handle n W = GetLogger r.1 n [] W).
Proof.
  intros Hok Hg Hd Hd0 root_handle.
  destruct (deref_lookup W r m Hd) as (ctx & Hctx & Hm).
  destruct (Hok _ _ Hctx _ _ Hm) as [_ Hcontext].
  destruct (deref_lookup W _ m0 Hd0) as (ctx0 & Hctx0 & Hm0).
  cbn [fst snd] in *. rewrite Hctx in Hctx0. injection Hctx0 as <-.
  destruct (Hok _ _ Hctx _ _ Hm0) as [Hname0 Hcontext0].
  assert (Hget : GetLogger r.1 "" [] W = Some (root_handle, W)).
  { rewrite (GetLogger_eq W r.1 ctx "" Hctx). cbn [ToLower prefixes prefixes_go foldl].
    rewrite ensure_present by (cbn; by rewrite Hm0).
    do 2 f_equal. destruct ctx as [rt ms]. cbn [root modules].
    rewrite insert_id by done. apply set_contexts_id. }
  assert (Hg0 : getModule root_handle W = Some ((r.1, ""), W)) by done.
  split; [|split; [|split]].
  - unfold Root. rewrite (bind_Some _ _ _ _ _ Hg), (bind_Some _ _ _ _ _ Hd).
    by rewrite Hcontext.
  - unfold Root. rewrite (bind_Some _ _ _ _ _ Hg0), (bind_Some _ _ _ _ _ Hd0).
    by rewrite Hcontext0.
  - unfold Name. rewrite (bind_Some _ _ _ _ _ Hg0), (bind_Some _ _ _ _ _ Hd0).
    unfold ret, module_Name. by rewrite decide_True.
  - intros n. rewrite (Child_eq W root_handle n _ m0 Hg0 Hd0), Hcontext0.
    unfold child_path. by rewrite decide_True.
Qed.

Lemma lower_ascii_dot (c : ascii) :
  Ascii.eqb (lower_ascii c) "." = Ascii.eqb c ".".
Proof. by destruct c as [[] [] [] [] [] [] [] []]. Qed.

Lemma has_dot_ToLower (s : string) : has_dot (ToLower s) = has_dot s.
Proof.
  induction s as [|c s IH]; [done|]. cbn [ToLower has_dot].
  by rewrite lower_ascii_dot, IH.
Qed.

Lemma prefixes_go_nodot (par acc y : string) :
  has_dot y = false → prefixes_go par acc y = [(acc +:+ y, par)].
Proof.
  revert acc. induction y as [|c y IH]; intros acc.
  - intros _. cbn. by rewrite app_empty_r.
  - cbn [has_dot prefixes_go]. intros [Hc Hy]%orb_false_iff. rewrite Hc.
    rewrite IH by done. by rewrite app_assoc_string.
Qed.

Lemma prefixes_go_length (par acc rest : string) kp :
  kp ∈ prefixes_go par acc rest →
  String.length kp.1 ≤ String.length acc + String.length rest.
Proof.
  revert par acc. induction rest as [|c rest IH]; intros par acc.
  - cbn. intros ->%list_elem_of_singleton. cbn. lia.
  - cbn [prefixes_go String.length]. destruct (Ascii.eqb c ".").
    + intros [->|Hin]%elem_of_cons; [cbn; lia|].
      apply IH in Hin. rewrite length_app_string in Hin. cbn in Hin. lia.
    + intros Hin. apply IH in Hin. rewrite length_app_string in Hin.
      cbn in Hin. lia.
Qed.

(** The prefixes of the name of a child with a suffix without dots: those
    of the name of the logger, then the name of the child with the logger
    as parent. *)
Lemma child_prefixes (m : module) (n : string) :
  has_dot n = false →
  ToLower (name m) = name m →
  ∃ l, prefixes (ToLower (child_path m n))
       = l ++ [(ToLower (child_path m n), name m)]
       ∧ ∀ kp, kp ∈ l → kp.1 ≠ ToLower (child_path m n).
Proof.
  intros Hn Hlow. rewrite <- has_dot_ToLower in Hn. unfold child_path.
  case_decide as He.
  - exists []. rewrite He. split; [|by intros kp Hin%elem_of_nil].
    unfold prefixes. by rewrite prefixes_go_nodot.
  - exists (prefixes (name m)). rewrite !ToLower_app, Hlow.
    change (ToLower ".") with ".". split.
    + rewrite prefixes_app. f_equal. rewrite prefixes_go_nodot by done.
      by rewrite app_assoc_string.
    + intros kp Hin Heq. apply prefixes_go_length in Hin.
      rewrite Heq, !length_app_string in Hin. cbn in Hin. lia.
Qed.

Lemma foldl_ensure_other c l ms k :
  (∀ kp, kp ∈ l → kp.1 ≠ k) → foldl (ensure c) ms l !! k = ms !! k.
Proof.
  revert ms. induction l as [|kp l IH]; intros ms Hall; [done|].
  cbn. rewrite IH by (intros kp' Hin; apply Hall; by right).
  unfold ensure. destruct (ms !! kp.1); [done|].
  rewrite lookup_insert_ne; [done|]. apply Hall. by left.
Qed.

(** A Node that did not exist is created without level and tags. *)
Lemma foldl_ensure_new c l ms k p :
  ms !! k = None → (k, p) ∈ l →
  ∃ p', foldl (ensure c) ms l !! k = Some (Module_ k UNSPECIFIED (c, p') c []).
Proof.
  revert ms. induction l as [|kp l IH]; intros ms Hk Hin.
  - by apply elem_of_nil in Hin.
  - cbn. destruct (decide (kp.1 = k)) as [Heq|Hne].
    + exists kp.2. apply foldl_ensure_keeps. unfold ensure.
      rewrite Heq, Hk. cbn. by rewrite lookup_insert_eq.
    + apply IH.
      * unfold ensure. destruct (ms !! kp.1); [done|].
        by rewrite lookup_insert_ne.
      * apply elem_of_cons in Hin as [Heq|Hin]; [|done].
        exfalso. apply Hne. by rewrite <- Heq.
Qed.

Lemma merge_tags_NoDup (old new : list string) :
  NoDup (old ++ new) → merge_tags old new = old ++ new.
Proof.
  revert old. induction new as [|t new IH]; intros old Hnd.
  - by rewrite app_nil_r.
  - unfold merge_tags in *. cbn [foldl].
    assert (t ∉ old).
    { apply NoDup_app in Hnd as (_ & Hdis & _). intros Hin.
      apply (Hdis t Hin). by left. }
    rewrite decide_False by done.
    rewrite IH; rewrite <- app_assoc; done.
Qed.

(** [ChildWithTags] on a handle whose Node and Registry exist. *)
Lemma ChildWithTags_eq W h n tgs r m ctx :
  getModule h W = Some (r, W) →
  deref r W = Some (m, W) →
  contexts W !! context m = Some ctx →
  ChildWithTags h n tgs W =
    Some (Logger_ (Some (context m, ToLower (child_path m n))) None,
          set_contexts
            (<[context m :=
                 Context_ (root ctx)
                   (alter (add_tags tgs) (ToLower (child_path m n))
                      (foldl (ensure (context m)) (modules ctx)
                         (prefixes (ToLower (child_path m n)))))]>
               (contexts W)) W).
Proof.
  intros Hg Hd Hc. unfold ChildWithTags.
  rewrite (bind_Some _ _ _ _ _ Hg), (bind_Some _ _ _ _ _ Hd).
  by apply GetLogger_tags_eq.
Qed.

Lemma deref_None_lookup W c ctx k :
  contexts W !! c = Some ctx → deref (c, k) W = None → modules ctx !! k = None.
Proof.
  intros Hc. unfold deref, bind, gets, lift. cbn [fst snd]. rewrite Hc.
  by destruct (modules ctx !! k).
Qed.

Lemma deref_Some_lookup W c ctx k x :
  contexts W !! c = Some ctx → modules ctx !! k = Some x →
  deref (c, k) W = Some (x, W).
Proof.
  intros Hc Hk. unfold deref, bind, gets, lift. cbn [fst snd].
  by rewrite Hc, Hk.
Qed.

(** X17.  A logger that [Child] creates, for a suffix without dots, has
    no level of its own and no tags, has the logger it was made from as
    parent, and inherits its effective level: it is enabled at the levels
    at which that logger is. *)
Theorem Child_new_inherits W h n r m lv :
  registry_ok W →
  getModule h W = Some (r, W) →
  deref r W = Some (m, W) →
  ToLower (name m) = name m →
  has_dot n = false →
  deref (r.1, ToLower (child_path m n)) W = None →
  EffectiveLogLevel h W = Some (lv, W) →
  ∃ c W',
    Child h n W = Some (c, W')
    ∧ LogLevel c W' = Some (UNSPECIFIED, W')
    ∧ Tags c W' = Some ([], W')
    ∧ Parent c W' = Some (Logger_ (Some r) None, W')
    ∧ EffectiveLogLevel c W' = Some (lv, W')
    ∧ (∀ l, IsLevelEnabled c l W' = IsLevelEnabled h l W'
            ∧ IsLevelEnabled h l W' = Some (level_num lv <=? level_num l, W')).
Proof.
  intros Hok Hg Hd Hlow Hn Hnew He.
  destruct (deref_lookup W r m Hd) as (ctx & Hctx & Hm).
  destruct (Hok _ _ Hctx _ _ Hm) as [Hname Hcontext].
  destruct r as [c k]. cbn [fst snd] in *.
  rewrite <- Hcontext in Hctx.
  pose proof (ChildWithTags_eq W h n [] _ m ctx Hg Hd Hctx) as Hrun.
  destruct (GetLogger_world W (context m) ctx (ToLower (child_path m n))
              (prefixes (ToLower (child_path m n))) [] Hctx)
    as (Hderef & Hget & Hcount).
  rewrite Hcontext in *.
  set (key := ToLower (child_path m n)) in *.
  set (ms1 := foldl (ensure c) (modules ctx) (prefixes key)) in *.
  set (W' := set_contexts _ W) in *.
  (* the new Node *)
  pose proof (deref_None_lookup W c ctx key Hctx Hnew) as Hnone.
  destruct (child_prefixes m n Hn Hlow) as (l0 & Hpre & Hl0). fold key in Hpre, Hl0.
  assert (Hnode : ms1 !! key = Some (Module_ key UNSPECIFIED (c, name m) c [])).
  { unfold ms1. rewrite Hpre, foldl_app. cbn [foldl]. unfold ensure. cbn [fst snd].
    rewrite (foldl_ensure_other c l0 _ key Hl0), Hnone.
    by rewrite lookup_insert_eq. }
  assert (Hdc : deref (c, key) W'
                = Some (Module_ key UNSPECIFIED (c, name m) c [], W')).
  { apply deref_Some_lookup with (ctx := Context_ (root ctx)
      (alter (add_tags []) key ms1)).
    - cbn. apply lookup_insert_eq.
    - cbn. by rewrite lookup_alter_eq, Hnode. }
  assert (Hgc : getModule (Logger_ (Some (c, key)) None) W' = Some ((c, key), W'))
    by done.
  assert (Hext : ∀ r0 x, deref r0 W = Some (x, W) → deref r0 W' = Some (x, W')).
  { intros r0 x Hx. rewrite (Hderef r0 x Hx), add_tags_nil. by case_decide. }
  (* one Node more *)
  assert (Hmore : S (node_count W) ≤ node_count W').
  { pose proof (node_count_insert W c ctx (alter (add_tags []) key ms1) Hctx) as Hc.
    fold W' in Hc. rewrite alter_size in Hc.
    assert (size (modules ctx) < size ms1); [|lia].
    apply map_subset_size, map_subset_alt. split.
    - apply map_subseteq_spec. intros k0 x. apply foldl_ensure_keeps.
    - exists key. split; [done|]. by rewrite Hnode. }
  (* the effective level of the receiver, then and now *)
  assert (Her : getEffectiveLogLevel (c, k) W = Some (lv, W)).
  { revert He. unfold EffectiveLogLevel. by rewrite (bind_Some _ _ _ _ _ Hg). }
  assert (Her' : getEffectiveLogLevel (c, k) W' = Some (lv, W')).
  { apply (getEffectiveLogLevel_extends W); [done|lia|done]. }
  assert (Hec : getEffectiveLogLevel (c, key) W' = Some (lv, W')).
  { unfold getEffectiveLogLevel in *. cbn [effective_walk]. rewrite Hdc.
    cbn [level parent]. rewrite decide_True by done. rewrite Hname.
    destruct (effective_walk (S (node_count W)) W (c, k)) as [l'|] eqn:Hw;
      [|done].
    injection Her as ->.
    apply (effective_walk_extends W W' _ _ _ Hext) in Hw.
    apply (effective_walk_more W' _ (node_count W' - S (node_count W))) in Hw.
    replace (S (node_count W) + (node_count W' - S (node_count W)))
      with (node_count W') in Hw by lia.
    by rewrite Hw. }
  exists (Logger_ (Some (c, key)) None), W'.
  split; [exact Hrun|].
  unfold LogLevel, Tags, Parent, EffectiveLogLevel.
  rewrite !(bind_Some _ _ _ _ _ Hgc), !(bind_Some _ _ _ _ _ Hdc).
  unfold ret. cbn [level tags parent]. rewrite Hname.
  do 3 (split; [done|]). split; [exact Hec|].
  intros l. unfold IsLevelEnabled, willWrite.
  rewrite (bind_Some _ _ _ _ _ Hgc), (bind_Some _ _ _ _ _ (Hget _ _ Hg)).
  by rewrite (bind_Some _ _ _ _ _ Hec), (bind_Some _ _ _ _ _ Her').
Qed.

(** X18.  [ChildWithTags] gives its tags to the child and to no other
    Node: a child that did not exist is created with exactly the tags
    supplied (when they are distinct) and with no level of its own, and the
    logger it was made from keeps the tags it had. *)
Theorem ChildWithTags_tags W h n tgs r m :
  registry_ok W →
  getModule h W = Some (r, W) →
  deref r W = Some (m, W) →
  NoDup tgs →
  deref (r.1, ToLower (child_path m n)) W = None →
  ∃ c W',
    ChildWithTags h n tgs W = Some (c, W')
    ∧ Tags c W' = Some (tgs, W')
    ∧ LogLevel c W' = Some (UNSPECIFIED, W')
    ∧ Tags h W' = Some (tags m, W')
    ∧ LogLevel h W' = Some (level m, W').
Proof.
  intros Hok Hg Hd Hnd Hnew.
  destruct (deref_lookup W r m Hd) as (ctx & Hctx & Hm).
  destruct (Hok _ _ Hctx _ _ Hm) as [Hname Hcontext].
  destruct r as [c k]. cbn [fst snd] in *.
  rewrite <- Hcontext in Hctx.
  pose proof (ChildWithTags_eq W h n tgs _ m ctx Hg Hd Hctx) as Hrun.
  destruct (GetLogger_world W (context m) ctx (ToLower (child_path m n))
              (prefixes (ToLower (child_path m n))) tgs Hctx)
    as (Hderef & Hget & _).
  rewrite Hcontext in *.
  set (key := ToLower (child_path m n)) in *.
  set (ms1 := foldl (ensure c) (modules ctx) (prefixes key)) in *.
  set (W' := set_contexts _ W) in *.
  pose proof (deref_None_lookup W c ctx key Hctx Hnew) as Hnone.
  destruct (prefixes_full key) as [p Hp].
  destruct (foldl_ensure_new c (prefixes key) (modules ctx) key p Hnone Hp)
    as [p' Hnode]. fold ms1 in Hnode.
  assert (Hdc : deref (c, key) W'
                = Some (Module_ key UNSPECIFIED (c, p') c tgs, W')).
  { apply deref_Some_lookup with (ctx := Context_ (root ctx)
      (alter (add_tags tgs) key ms1)).
    - cbn. apply lookup_insert_eq.
    - cbn. rewrite lookup_alter_eq, Hnode. cbn. unfold add_tags. cbn.
      by rewrite (merge_tags_NoDup [] tgs). }
  assert (Hgc : getModule (Logger_ (Some (c, key)) None) W' = Some ((c, key), W'))
    by done.
  assert (Hdr : deref (c, k) W' = Some (m, W')).
  { rewrite (Hderef _ _ Hd). rewrite decide_False; [done|].
    intros [= ->]. congruence. }
  exists (Logger_ (Some (c, key)) None), W'.
  split; [exact Hrun|]. unfold Tags, LogLevel.
  rewrite !(bind_Some _ _ _ _ _ Hgc), !(bind_Some _ _ _ _ _ Hdc).
  rewrite !(bind_Some _ _ _ _ _ (Hget _ _ Hg)), !(bind_Some _ _ _ _ _ Hdr).
  done.
Qed.

End Hierarchy.

Lemma Child_keeps_existing_witness :
  ∃ l W', Child testing_logger "fresh" sample_world = Some (l, W')
    ∧ heap W' = heap sample_world
    ∧ EffectiveLogLevel tagged_logger W' = Some (INFO, W')
    ∧ IsLevelEnabled tagged_logger DEBUG W' = Some (false, W').
Proof.
  destruct (Child testing_logger "fresh" sample_world) as [[l W']|] eqn:Hrun;
    [|vm_compute in Hrun; discriminate Hrun].
  exists l, W'. split; [reflexivity|].
  destruct (Child_keeps_existing sample_world testing_logger "fresh" l W' Hrun)
    as (Hh & _ & _ & _ & _ & _ & Heff & Hen).
  split; [exact Hh|]. split.
  - apply Heff. vm_compute. reflexivity.
  - apply Hen. vm_compute. reflexivity.
Defined.


Lemma Root_is_registry_root_witness :
  registry_ok sample_world
  ∧ getModule tagged_logger sample_world
    = Some ((1, "testing.withtags"), sample_world)
  ∧ deref (1, "testing.withtags") sample_world
    = Some (sample_tagged_node, sample_world)
  ∧ deref (1, "") sample_world = Some (Module_ "" INFO (1, "") 1 [], sample_world)
  ∧ Root tagged_logger sample_world = Some (sample_root, sample_world)
  ∧ Name sample_root sample_world = Some ("<root>", sample_world).
Proof.
  assert (Hg : getModule tagged_logger sample_world
               = Some ((1, "testing.withtags"), sample_world)) by reflexivity.
  assert (Hd : deref (1, "testing.withtags") sample_world
               = Some (sample_tagged_node, sample_world))
    by (vm_compute; reflexivity).
  assert (Hd0 : deref (1, "") sample_world
                = Some (Module_ "" INFO (1, "") 1 [], sample_world))
    by (vm_compute; reflexivity).
  split; [exact sample_world_ok|]. split; [exact Hg|]. split; [exact Hd|].
  split; [exact Hd0|].
  destruct (Root_is_registry_root sample_world tagged_logger _ _ _
              sample_world_ok Hg Hd Hd0) as (Hroot & _ & Hname & _).
  split; [exact Hroot|exact Hname].
Defined.

Lemma Child_new_inherits_witness :
  registry_ok sample_world
  ∧ getModule testing_logger sample_world = Some ((1, "testing"), sample_world)
  ∧ deref (1, "testing") sample_world
    = Some (Module_ "testing" UNSPECIFIED (1, "") 1 [], sample_world)
  ∧ has_dot "fresh" = false
  ∧ deref (1, "testing.fresh") sample_world = None
  ∧ EffectiveLogLevel testing_logger sample_world = Some (INFO, sample_world)
  ∧ ∃ c W', Child testing_logger "fresh" sample_world = Some (c, W')
            ∧ LogLevel c W' = Some (UNSPECIFIED, W')
            ∧ Parent c W' = Some (Logger_ (Some (1, "testing")) None, W')
            ∧ EffectiveLogLevel c W' = Some (INFO, W').
Proof.
  assert (Hg : getModule testing_logger sample_world
               = Some ((1, "testing"), sample_world)) by reflexivity.
  assert (Hd : deref (1, "testing") sample_world
               = Some (Module_ "testing" UNSPECIFIED (1, "") 1 [], sample_world))
    by (vm_compute; reflexivity).
  assert (Hn : has_dot "fresh" = false) by reflexivity.
  assert (Hnew : deref (1, "testing.fresh") sample_world = None)
    by (vm_compute; reflexivity).
  assert (He : EffectiveLogLevel testing_logger sample_world
               = Some (INFO, sample_world)) by (vm_compute; reflexivity).
  split; [exact sample_world_ok|]. split; [exact Hg|]. split; [exact Hd|].
  split; [exact Hn|]. split; [exact Hnew|]. split; [exact He|].
  destruct (Child_new_inherits sample_world testing_logger "fresh" _ _ INFO
              sample_world_ok Hg Hd eq_refl Hn Hnew He)
    as (c & W' & Hrun & Hlv & _ & Hpar & Heff & _).
  exists c, W'. split; [exact Hrun|]. split; [exact Hlv|].
  split; [exact Hpar|exact Heff].
Defined.

Lemma ChildWithTags_tags_witness :
  registry_ok sample_world
  ∧ getModule testing_logger sample_world = Some ((1, "testing"), sample_world)
  ∧ deref (1, "testing") sample_world
    = Some (Module_ "testing" UNSPECIFIED (1, "") 1 [], sample_world)
  ∧ NoDup ["http"; "api"]
  ∧ deref (1, "testing.svc") sample_world = None
  ∧ ∃ c W', ChildWithTags testing_logger "svc" ["http"; "api"] sample_world
              = Some (c, W')
            ∧ Tags c W' = Some (["http"; "api"], W')
            ∧ Tags testing_logger W' = Some ([], W').
Proof.
  assert (Hg : getModule testing_logger sample_world
               = Some ((1, "testing"), sample_world)) by reflexivity.
  assert (Hd : deref (1, "testing") sample_world
               = Some (Module_ "testing" UNSPECIFIED (1, "") 1 [], sample_world))
    by (vm_compute; reflexivity).
  assert (Hnd : NoDup ["http"; "api"]).
  { apply NoDup_cons. split.
    - intros Hin%list_elem_of_singleton. discriminate Hin.
    - apply NoDup_singleton. }
  assert (Hnew : deref (1, "testing.svc") sample_world = None)
    by (vm_compute; reflexivity).
  split; [exact sample_world_ok|]. split; [exact Hg|]. split; [exact Hd|].
  split; [exact Hnd|]. split; [exact Hnew|].
  destruct (ChildWithTags_tags sample_world testing_logger "svc" ["http"; "api"]
              _ _ sample_world_ok Hg Hd Hnd Hnew)
    as (c & W' & Hrun & Htags & _ & Hh & _).
  exists c, W'. split; [exact Hrun|]. split; [exact Htags|exact Hh].
Defined.

(** ** Levels set on a parent *)

Section Inheritance.
Context {Arg : Type}.
Implicit Types W : @World Arg.

Lemma node_count_ge W c ctx :
  contexts W !! c = Some ctx → size (modules ctx) ≤ node_count W.
Proof.
  intros Hc. unfold node_count.
  rewrite (map_fold_delete_L _ _ c ctx (contexts W)); [lia|intros; lia|done].
Qed.

(** Replacing the Nodes of a Registry keeps the Node every handle stands
    for. *)
Lemma getModule_insert W c ctx ms' h0 r0 :
  contexts W !! c = Some ctx →
  getModule h0 W = Some (r0, W) →
  getModule h0
    (set_contexts (<[c := Context_ (root ctx) ms']> (contexts W)) W)
  = Some (r0, set_contexts (<[c := Context_ (root ctx) ms']> (contexts W)) W).
Proof.
  intros Hc. unfold getModule. destruct (impl h0); [by intros [= ->]|].
  unfold defaultContext_root, bind, gets, lift, ret. cbn [contexts set_contexts].
  destruct (contexts W !! defaultContext) as [c0|] eqn:Hc0; [|done].
  intros [= <-]. rewrite lookup_insert. case_decide as Heq; [|by rewrite Hc0].
  cbn. rewrite <- Heq in Hc0. by simplify_eq.
Qed.

(** X19.  A specified level set on a logger becomes the effective level
    of each child that has no level of its own: after [SetLogLevel] on the
    parent the child is enabled exactly at the levels at or above the level
    set, whatever its effective level was before. *)
Theorem SetLogLevel_reaches_children W h lvl r m c rc mc :
  getModule h W = Some (r, W) →
  deref r W = Some (m, W) →
  lvl ≠ UNSPECIFIED →
  getModule c W = Some (rc, W) →
  deref rc W = Some (mc, W) →
  level mc = UNSPECIFIED →
  parent mc = r →
  rc ≠ r →
  ∃ W', SetLogLevel h lvl W = Some (tt, W')
    ∧ LogLevel c W' = Some (UNSPECIFIED, W')
    ∧ EffectiveLogLevel c W' = Some (lvl, W')
    ∧ ∀ l, IsLevelEnabled c l W' = Some (level_num lvl <=? level_num l, W').
Proof.
  intros Hg Hd Hl Hgc Hdc Hlc Hpar Hne.
  destruct (deref_lookup W r m Hd) as (ctx & Hctx & Hm).
  destruct (SetLogLevel_eq W h lvl r m ctx Hg Hd Hctx) as (Hset & _ & Hd' & Hoth).
  match type of Hset with _ = Some (_, ?X) => set (W' := X) in * end.
  rewrite decide_False in Hd' by tauto.
  pose proof (Hoth rc mc Hne Hdc) as Hdc'.
  assert (Hgc' : getModule c W' = Some (rc, W')).
  { apply (getModule_insert W r.1 ctx); [exact Hctx|exact Hgc]. }
  assert (Hfuel : 1 ≤ node_count W').
  { assert (Hc' : contexts W' !! r.1
              = Some (Context_ (root ctx)
                        (<[r.2 := Module_ (name m) lvl (parent m) (context m)
                                    (tags m)]> (modules ctx)))).
    { unfold W'. cbn. rewrite decide_False by tauto. apply lookup_insert_eq. }
    pose proof (node_count_ge W' _ _ Hc') as Hge. cbn [modules] in Hge.
    assert (size (<[r.2 := Module_ (name m) lvl (parent m) (context m) (tags m)]>
                    (modules ctx)) ≠ 0); [|lia].
    intros Hz%map_size_empty_iff.
    apply (f_equal (λ ms : gmap string module, ms !! r.2)) in Hz.
    by rewrite lookup_insert_eq, lookup_empty in Hz. }
  assert (He : getEffectiveLogLevel rc W' = Some (lvl, W')).
  { unfold getEffectiveLogLevel. cbn [effective_walk]. rewrite Hdc'.
    rewrite decide_True by done. rewrite Hpar.
    destruct (node_count W') as [|fuel]; [lia|]. cbn [effective_walk].
    rewrite Hd'. cbn [level]. by rewrite decide_False. }
  exists W'. split; [exact Hset|]. split; [|split].
  - unfold LogLevel.
    rewrite (bind_Some _ _ _ _ _ Hgc'), (bind_Some _ _ _ _ _ Hdc').
    unfold ret. by rewrite Hlc.
  - unfold EffectiveLogLevel. by rewrite (bind_Some _ _ _ _ _ Hgc').
  - intros l. unfold IsLevelEnabled, willWrite.
    by rewrite (bind_Some _ _ _ _ _ Hgc'), (bind_Some _ _ _ _ _ He).
Qed.

End Inheritance.

Lemma SetLogLevel_reaches_children_witness :
  getModule sample_root sample_world = Some ((1, ""), sample_world)
  ∧ deref (1, "") sample_world = Some (Module_ "" INFO (1, "") 1 [], sample_world)
  ∧ getModule testing_logger sample_world = Some ((1, "testing"), sample_world)
  ∧ deref (1, "testing") sample_world
    = Some (Module_ "testing" UNSPECIFIED (1, "") 1 [], sample_world)
  ∧ EffectiveLogLevel testing_logger sample_world = Some (INFO, sample_world)
  ∧ ∃ W', SetLogLevel sample_root ERROR sample_world = Some (tt, W')
          ∧ EffectiveLogLevel testing_logger W' = Some (ERROR, W')
          ∧ IsLevelEnabled testing_logger INFO W' = Some (false, W').
Proof.
  assert (Hg : getModule sample_root sample_world
               = Some ((1, ""), sample_world)) by reflexivity.
  assert (Hd : deref (1, "") sample_world
               = Some (Module_ "" INFO (1, "") 1 [], sample_world))
    by (vm_compute; reflexivity).
  assert (Hgc : getModule testing_logger sample_world
                = Some ((1, "testing"), sample_world)) by reflexivity.
  assert (Hdc : deref (1, "testing") sample_world
                = Some (Module_ "testing" UNSPECIFIED (1, "") 1 [], sample_world))
    by (vm_compute; reflexivity).
  assert (He : EffectiveLogLevel testing_logger sample_world
               = Some (INFO, sample_world)) by (vm_compute; reflexivity).
  split; [exact Hg|]. split; [exact Hd|]. split; [exact Hgc|].
  split; [exact Hdc|]. split; [exact He|].
  assert (Hl : ERROR ≠ UNSPECIFIED) by discriminate.
  assert (Hne : (1, "testing") ≠ (1, "")) by discriminate.
  destruct (SetLogLevel_reaches_children sample_world sample_root ERROR _ _
              testing_logger _ _ Hg Hd Hl Hgc Hdc eq_refl eq_refl Hne)
    as (W' & Hset & _ & Heff & Hen).
  exists W'. split; [exact Hset|]. split; [exact Heff|exact (Hen INFO)].
Defined.
